(** * Vargen: the bracket-template expansion engine

    A shallow embedding of [src/text_variations.py] and the properties of
    [generate_text_variations] (the spec's [expand]), then of the batch
    writing of [src/process_files.py] and of the command line of
    [src/vargen.py].

    A Python [str] is a sequence of Unicode code points: it is modelled as a
    list of code points ([N]).  Indices are [nat]; the sentinel [-1] returned
    by [find_matching_bracket] is [None].  Bracket depth is a Python [int]
    that [split_options] may drive below zero, so it is a [Z]. *)

From Stdlib Require Import String Ascii.
From Stdlib Require Import List NArith ZArith Lia Bool Permutation.
Import ListNotations.

(** ** Strings *)

Definition char := N.
Definition str := list char.

(** A string literal as a Python [str] (code points below 256). *)
Definition py (s : string) : str := map N_of_ascii (list_ascii_of_string s).

Definition lbracket : char := 91%N.  (* '[' *)
Definition rbracket : char := 93%N.  (* ']' *)
Definition pipe : char := 124%N.     (* '|' *)
Definition space : char := 32%N.     (* ' ' *)

(** [text[a:b]] and [text[a:]] for indices within [0 .. len(text)]. *)
Definition slice (text : str) (a b : nat) : str := firstn (b - a) (skipn a text).
Definition slice_from (text : str) (a : nat) : str := skipn a text.
Definition slice_to (text : str) (b : nat) : str := firstn b text.

(** ** [re.search(r'\[', current_text)]: the index of the leftmost '[' *)

Fixpoint search_from (rest : str) (i : nat) : option nat :=
  match rest with
  | [] => None
  | c :: rest' => if N.eqb c lbracket then Some i else search_from rest' (S i)
  end.

Definition re_search_lbracket (text : str) : option nat := search_from text 0.

(** ** [find_matching_bracket] *)

(** The [for i in range(start_index + 1, len(text))] loop: [rest] is
    [text[i:]], [depth] the loop variable. *)
Fixpoint scan_close (rest : str) (i : nat) (depth : Z) : option nat :=
  match rest with
  | [] => None
  | c :: rest' =>
      if N.eqb c lbracket then scan_close rest' (S i) (depth + 1)
      else if N.eqb c rbracket then
        if Z.eqb (depth - 1) 0 then Some i
        else scan_close rest' (S i) (depth - 1)
      else scan_close rest' (S i) depth
  end.

Definition find_matching_bracket (text : str) (start_index : nat) : option nat :=
  scan_close (slice_from text (start_index + 1)) (start_index + 1) 1.

(** ** [split_options] *)

(** The [for i, char in enumerate(option_text)] loop with its three
    variables [options], [depth], [start]; [rest] is [option_text[i:]].
    After the loop the last option [option_text[start:]] is appended. *)
Fixpoint split_loop (option_text rest : str) (i : nat)
         (options : list str) (depth : Z) (start : nat) : list str :=
  match rest with
  | [] => options ++ [slice_from option_text start]
  | c :: rest' =>
      if N.eqb c lbracket then
        split_loop option_text rest' (S i) options (depth + 1) start
      else if N.eqb c rbracket then
        split_loop option_text rest' (S i) options (depth - 1) start
      else if N.eqb c pipe && Z.eqb depth 0 then
        split_loop option_text rest' (S i)
                   (options ++ [slice option_text start i]) depth (i + 1)
      else split_loop option_text rest' (S i) options depth start
  end.

Definition split_options (option_text : str) : list str :=
  split_loop option_text option_text 0 [] 0 0.

(** ** [generate_variations_recursive] *)

(** The nested [for] loops that append to [variations]: each iteration
    contributes a list, in order; a failing iteration fails the whole. *)
Fixpoint for_each {A B : Type} (l : list A) (body : A -> option (list B))
  : option (list B) :=
  match l with
  | [] => Some []
  | x :: l' =>
      match body x with
      | None => None
      | Some ys =>
          match for_each l' body with
          | None => None
          | Some zs => Some (ys ++ zs)
          end
      end
  end.

(** The recursion is on slices of the text, not on its structure: [fuel]
    is the number of nested calls the interpreter still allows, and [None]
    means that the call needed more (CPython's [RecursionError]). *)
Fixpoint gvr_fuel (fuel : nat) (current_text : str) : option (list str) :=
  match fuel with
  | O => None
  | S fuel' =>
      match re_search_lbracket current_text with
      | None => Some [current_text]
      | Some start_index =>
          match find_matching_bracket current_text start_index with
          | None => Some [current_text]
          | Some end_index =>
              let prefix := slice_to current_text start_index in
              let suffix := slice_from current_text (end_index + 1) in
              let options :=
                split_options (slice current_text (start_index + 1) end_index) in
              for_each options (fun option =>
                match gvr_fuel fuel' option with
                | None => None
                | Some variants =>
                    for_each variants (fun variant =>
                      match gvr_fuel fuel' suffix with
                      | None => None
                      | Some suffix_variants =>
                          Some (map (fun suffix_variant =>
                                       prefix ++ variant ++ suffix_variant)
                                    suffix_variants)
                      end)
                end)
          end
      end
  end.

(** What the call returns when it returns: the recursive calls are on
    strictly shorter texts, so a fuel above the length of the text is
    enough ([gvr_fuel_enough] below).  Whether the call returns under the
    interpreter's recursion limit is [generate_text_variations_within]. *)
Definition generate_variations_recursive (current_text : str) : list str :=
  match gvr_fuel (S (length current_text)) current_text with
  | Some variations => variations
  | None => []
  end.

(** ** The whitespace normalization of the last line *)

(** [re.sub(' +', ' ', variation)]: [in_run] tells that the scan is inside a
    match of [' +'], whose single replacement space is already emitted. *)
Fixpoint sub_spaces_from (in_run : bool) (s : str) : str :=
  match s with
  | [] => []
  | c :: s' =>
      if N.eqb c space then
        if in_run then sub_spaces_from true s'
        else space :: sub_spaces_from true s'
      else c :: sub_spaces_from false s'
  end.

Definition sub_spaces (s : str) : str := sub_spaces_from false s.

(** The characters [str.strip()] removes: those of [str.isspace]. *)
Definition isspace (c : char) : bool :=
  ((9 <=? c) && (c <=? 13) || (28 <=? c) && (c <=? 32)
   || (c =? 133) || (c =? 160) || (c =? 5760)
   || (8192 <=? c) && (c <=? 8202)
   || (c =? 8232) || (c =? 8233) || (c =? 8239) || (c =? 8287)
   || (c =? 12288))%N.

Fixpoint lstrip (s : str) : str :=
  match s with
  | [] => []
  | c :: s' => if isspace c then lstrip s' else s
  end.

Definition rstrip (s : str) : str := rev (lstrip (rev s)).

Definition strip (s : str) : str := rstrip (lstrip s).

Definition normalize (variation : str) : str := strip (sub_spaces variation).

(** ** [generate_text_variations], the spec's [expand] *)

Definition generate_text_variations (text : str) : list str :=
  map normalize (generate_variations_recursive text).

Definition expand := generate_text_variations.

(** The same call when the interpreter allows [depth] nested calls of
    [generate_variations_recursive]: [None] is the [RecursionError] that
    comes out of [generate_text_variations] when one call needs more
    (nothing in the source catches it or raises the limit). *)
Definition generate_text_variations_within (depth : nat) (text : str)
  : option (list str) :=
  option_map (map normalize) (gvr_fuel depth text).

(** The number of '[' in a text. *)
Definition count_lbracket (s : str) : nat :=
  length (filter (fun c => N.eqb c lbracket) s).

(** ["[a]" * n]. *)
Definition groups_in_a_row (n : nat) : str := concat (repeat (py "[a]") n).

(** ** The recursion's equation *)

(** One step of the recursion, given the results of the recursive calls. *)
Definition gvr_step (g : str -> list str) (current_text : str) : list str :=
  match re_search_lbracket current_text with
  | None => [current_text]
  | Some start_index =>
      match find_matching_bracket current_text start_index with
      | None => [current_text]
      | Some end_index =>
          let prefix := slice_to current_text start_index in
          let suffix := slice_from current_text (end_index + 1) in
          let options :=
            split_options (slice current_text (start_index + 1) end_index) in
          flat_map (fun option =>
            flat_map (fun variant =>
              map (fun suffix_variant => prefix ++ variant ++ suffix_variant)
                  (g suffix))
              (g option))
            options
      end
  end.

(** ** Shapes of strings *)

Definition starts_with (p : char -> bool) (s : str) : bool :=
  match s with
  | [] => false
  | c :: _ => p c
  end.

Definition ends_with (p : char -> bool) (s : str) : bool := starts_with p (rev s).

Definition is_space (c : char) : bool := N.eqb c space.

(** Two consecutive space characters somewhere in [s]. *)
Fixpoint has_double_space (s : str) : bool :=
  match s with
  | [] => false
  | c :: s' => is_space c && starts_with is_space s' || has_double_space s'
  end.

(** What a normalized variation looks like. *)
Definition normalized (s : str) : Prop :=
  has_double_space s = false
  /\ starts_with isspace s = false
  /\ ends_with isspace s = false.

Definition visible (c : char) : bool := negb (isspace c).

(** ** Unterminated groups: definitions *)

(** The '[' at index [k] has no matching ']'. *)
Definition unmatched (text : str) (k : nat) : Prop :=
  nth_error text k = Some lbracket /\ find_matching_bracket text k = None.

Definition first_unmatched (text : str) (k : nat) : Prop :=
  unmatched text k /\ forall i, i < k -> ~ unmatched text i.

(** [tail] occurs, as it is, somewhere in [v]. *)
Definition occurs_in (tail v : str) : Prop := exists p q, v = p ++ tail ++ q.

(** Every returned variation still contains the text from index [k] on. *)
Definition tail_kept_verbatim (text : str) (k : nat) : Prop :=
  Forall (occurs_in (slice_from text k)) (generate_text_variations text).

(** ** [split_options] on the text that is left *)

(** The same loop on the text that is left, carrying the option being read
    ([current] is [option_text[start:i]]) in place of the two indices. *)
Fixpoint split_from (current rest : str) (depth : Z) : list str :=
  match rest with
  | [] => [current]
  | c :: rest' =>
      if N.eqb c lbracket then split_from (current ++ [c]) rest' (depth + 1)
      else if N.eqb c rbracket then split_from (current ++ [c]) rest' (depth - 1)
      else if N.eqb c pipe && Z.eqb depth 0 then current :: split_from [] rest' depth
      else split_from (current ++ [c]) rest' depth
  end.

(** Opening minus closing brackets. *)
Fixpoint net_depth (s : str) : Z :=
  match s with
  | [] => 0
  | c :: s' =>
      (if N.eqb c lbracket then 1 else if N.eqb c rbracket then -1 else 0)
      + net_depth s'
  end.

(** ** Well-formed texts *)

(** Read from depth [depth], the brackets of [s] never close more than was
    opened and the depth ends at zero. *)
Fixpoint balanced_from (depth : Z) (s : str) : bool :=
  match s with
  | [] => Z.eqb depth 0
  | c :: s' =>
      if N.eqb c lbracket then balanced_from (depth + 1) s'
      else if N.eqb c rbracket then Z.leb 1 depth && balanced_from (depth - 1) s'
      else balanced_from depth s'
  end.

Definition balanced (s : str) : bool := balanced_from 0 s.

(** Every '[' of [text] has its matching ']'. *)
Definition all_matched (text : str) : Prop := forall k, ~ unmatched text k.

(** No bracket and no '|'. *)
Definition plain (s : str) : Prop :=
  ~ In lbracket s /\ ~ In rbracket s /\ ~ In pipe s.

(** [sep.join(l)]. *)
Fixpoint join (sep : str) (l : list str) : str :=
  match l with
  | [] => []
  | [x] => x
  | x :: l' => x ++ sep ++ join sep l'
  end.

(** [v] is [t] with some characters left out. *)
Inductive subseq : str -> str -> Prop :=
| subseq_nil : subseq [] []
| subseq_keep c v t : subseq v t -> subseq (c :: v) (c :: t)
| subseq_skip c v t : subseq v t -> subseq v (c :: t).

(** The concatenations [x + y], for [x] in [xs] then [y] in [ys]. *)
Definition product (xs ys : list str) : list str :=
  flat_map (fun x => map (fun y => x ++ y) ys) xs.

(** * [src/process_files.py]: writing the variations in batches *)

(** The model starts once [texts] is read and ends with what is written to
    the output file.  The futures complete in an order of their own:
    [completed] lists their results in that order. *)

Definition newline : char := 10%N.

(** One call of [output_file.write]: a variation or the separator, each
    with a newline after it. *)
Inductive record : Type :=
| Variation (variation : str)
| Separator.

Definition line (separator : str) (r : record) : str :=
  match r with
  | Variation variation => variation ++ [newline]
  | Separator => separator ++ [newline]
  end.

(** Python's truth value of a string or of a list: not empty. *)
Definition truthy {A : Type} (l : list A) : bool :=
  match l with
  | [] => false
  | _ :: _ => true
  end.

(** The writes of one batch inside the loop (lines 91-96). *)
Definition write_batch (separator : str) (results_batch : list str) : list record :=
  map Variation results_batch ++ (if truthy separator then [Separator] else []).

(** The [for future in as_completed(futures)] loop, with what was written
    so far and the variable [results_batch]. *)
Fixpoint batch_loop (separator : str) (batch_size : Z)
         (completed : list (list str))
         (written : list record) (results_batch : list str)
  : list record * list str :=
  match completed with
  | [] => (written, results_batch)
  | result :: completed' =>
      let results_batch := results_batch ++ result in
      if Z.leb batch_size (Z.of_nat (length results_batch)) then
        batch_loop separator batch_size completed'
                   (written ++ write_batch separator results_batch) []
      else batch_loop separator batch_size completed' written results_batch
  end.

(** The loop, then the writes of what is left (lines 102-107). *)
Definition write_results (separator : str) (batch_size : Z)
           (completed : list (list str)) : list record :=
  let (written, results_batch) :=
    batch_loop separator batch_size completed [] [] in
  written ++ map Variation results_batch
  ++ (if truthy separator && truthy results_batch then [Separator] else []).

(** The content of the output file in the end, from its content before;
    [completed] is the input lines in the order in which their futures
    complete. *)
Definition process_text_variations (append : bool) (separator : str)
           (batch_size : Z) (completed : list str) (previous : str) : str :=
  (if append then previous else [])
  ++ concat (map (line separator)
                 (write_results separator batch_size
                                (map generate_text_variations completed))).

(** The variations among the writes, in order. *)
Definition variations_of (log : list record) : list str :=
  flat_map (fun r => match r with
                     | Variation variation => [variation]
                     | Separator => []
                     end) log.

(** The same loop on whole results: the results that make each batch
    written inside the loop, and those left for the end. *)
Fixpoint chunk_loop (batch_size : Z) (completed : list (list str))
         (chunk : list (list str))
  : list (list (list str)) * list (list str) :=
  match completed with
  | [] => ([], chunk)
  | result :: completed' =>
      let chunk := chunk ++ [result] in
      if Z.leb batch_size (Z.of_nat (length (concat chunk))) then
        let (chunks, rest) := chunk_loop batch_size completed' [] in
        (chunk :: chunks, rest)
      else chunk_loop batch_size completed' chunk
  end.

(** * [src/vargen.py]: the command line *)

Definition equals_sign : char := 61%N.  (* '=' *)

Fixpoint str_eqb (a b : str) : bool :=
  match a, b with
  | [], [] => true
  | c :: a', d :: b' => N.eqb c d && str_eqb a' b'
  | _, _ => false
  end.

(** ['=' in arg]. *)
Definition has_equals (arg : str) : bool := existsb (N.eqb equals_sign) arg.

(** [key, value = arg.split('=', 1)]: the text before the first '=' and the
    text after it; [None] when there is no '=' (the unpacking would then
    fail). *)
Fixpoint split_once (arg : str) : option (str * str) :=
  match arg with
  | [] => None
  | c :: arg' =>
      if N.eqb c equals_sign then Some ([], arg')
      else match split_once arg' with
           | Some (key, value) => Some (c :: key, value)
           | None => None
           end
  end.

(** The five variables the script fills from [sys.argv]; [None] is Python's
    [None]. *)
Record cli : Type := {
  analyze_speed : option bool;
  append : option bool;
  separator : option str;
  input_filename : option str;
  output_filename : option str
}.

Definition cli_none : cli :=
  {| analyze_speed := None; append := None; separator := None;
     input_filename := None; output_filename := None |}.

(** [value.lower() == 'true'] and [value.lower() in ['true', 'append']];
    [lower] is Python's [str.lower]. *)
Definition is_true (lower : str -> str) (value : str) : bool :=
  str_eqb (lower value) (py "true").

Definition is_true_or_append (lower : str -> str) (value : str) : bool :=
  str_eqb (lower value) (py "true") || str_eqb (lower value) (py "append").

(** The [if key == ... elif ...] chain of the first loop (lines 132-141). *)
Definition assign (lower : str -> str) (st : cli) (key value : str) : cli :=
  if str_eqb key (py "analyze_speed") then
    {| analyze_speed := Some (is_true lower value); append := append st;
       separator := separator st; input_filename := input_filename st;
       output_filename := output_filename st |}
  else if str_eqb key (py "append") then
    {| analyze_speed := analyze_speed st;
       append := Some (is_true_or_append lower value);
       separator := separator st; input_filename := input_filename st;
       output_filename := output_filename st |}
  else if str_eqb key (py "separator") then
    {| analyze_speed := analyze_speed st; append := append st;
       separator := Some value; input_filename := input_filename st;
       output_filename := output_filename st |}
  else if str_eqb key (py "input_filename") then
    {| analyze_speed := analyze_speed st; append := append st;
       separator := separator st; input_filename := Some value;
       output_filename := output_filename st |}
  else if str_eqb key (py "output_filename") then
    {| analyze_speed := analyze_speed st; append := append st;
       separator := separator st; input_filename := input_filename st;
       output_filename := Some value |}
  else st.

(** [for arg in key_value_args] (lines 129-141). *)
Fixpoint key_value_loop (lower : str -> str) (key_value_args : list str)
         (st : cli) : option cli :=
  match key_value_args with
  | [] => Some st
  | arg :: rest =>
      match split_once arg with
      | None => None
      | Some (key, value) => key_value_loop lower rest (assign lower st key value)
      end
  end.

(** [x] when it is not [None], else the positional argument [i] when there
    is one (lines 145-154). *)
Definition or_positional {A : Type} (x : option A) (positional_args : list str)
           (i : nat) (f : str -> A) : option A :=
  match x with
  | Some _ => x
  | None => option_map f (nth_error positional_args i)
  end.

Definition positional (lower : str -> str) (positional_args : list str)
           (st : cli) : cli :=
  {| analyze_speed :=
       or_positional (analyze_speed st) positional_args 0 (is_true lower);
     append :=
       or_positional (append st) positional_args 1 (is_true_or_append lower);
     separator := or_positional (separator st) positional_args 2 (fun a => a);
     input_filename :=
       or_positional (input_filename st) positional_args 3 (fun a => a);
     output_filename :=
       or_positional (output_filename st) positional_args 4 (fun a => a) |}.

(** The parsing of [argv = sys.argv[1:]] (lines 120-154); [None] stands for
    an exception. *)
Definition parse_args (lower : str -> str) (argv : list str) : option cli :=
  match key_value_loop lower (filter has_equals argv) cli_none with
  | None => None
  | Some st =>
      Some (positional lower (filter (fun arg => negb (has_equals arg)) argv) st)
  end.

(** The keys the first loop knows. *)
Definition known_key (key : str) : bool :=
  str_eqb key (py "analyze_speed") || str_eqb key (py "append")
  || str_eqb key (py "separator") || str_eqb key (py "input_filename")
  || str_eqb key (py "output_filename").

(** The value given by the last argument [key=value] with that key. *)
Fixpoint last_value (key : str) (argv : list str) : option str :=
  match argv with
  | [] => None
  | arg :: rest =>
      match last_value key rest with
      | Some value => Some value
      | None =>
          match split_once arg with
          | Some (k, value) => if str_eqb k key then Some value else None
          | None => None
          end
      end
  end.

(** What a text-valued variable ends up with: the last [key=value] for
    its key or, without any, the positional argument of its rank. *)
Definition key_or_position (key : str) (rank : nat) (argv : list str)
  : option str :=
  match last_value key argv with
  | Some value => Some value
  | None => nth_error (filter (fun arg => negb (has_equals arg)) argv) rank
  end.

(** Lower-casing of the letters A to Z, what [str.lower] does on them. *)
Definition lower_ascii (s : str) : str :=
  map (fun c => if (65 <=? c)%N && (c <=? 90)%N then (c + 32)%N else c) s.

(** * Properties *)

(** The source's own docstring examples. *)
Example doc_find_matching_bracket :
  find_matching_bracket (py "Example [text with [nested] brackets]") 8 = Some 36.
Proof. reflexivity. Qed.

Example doc_split_options :
  split_options (py "nested [option1|option2]|option3")
  = [py "nested [option1|option2]"; py "option3"].
Proof. reflexivity. Qed.

Example doc_generate_variations_recursive :
  generate_variations_recursive (py "Nested [example [one|two]|case]")
  = [py "Nested example one"; py "Nested example two"; py "Nested case"].
Proof. vm_compute. reflexivity. Qed.

Example doc_generate_text_variations :
  generate_text_variations (py "Good [[morning|evening], [John|Jane]| day]!")
  = [py "Good morning, John!"; py "Good morning, Jane!";
     py "Good evening, John!"; py "Good evening, Jane!"; py "Good day!"].
Proof. vm_compute. reflexivity. Qed.

(** ** The leftmost '[' *)

Lemma search_from_none rest i :
  search_from rest i = None <-> ~ In lbracket rest.
Proof.
  revert i; induction rest as [|c rest IH]; intros i; simpl.
  - tauto.
  - destruct (N.eqb_spec c lbracket) as [->|Hc].
    + split; [discriminate | intros H; exfalso; apply H; now left].
    + rewrite IH. split; intros H; [intros [E|E]; [congruence | tauto] | tauto].
Qed.

Lemma search_from_some rest i j :
  search_from rest i = Some j ->
  exists pre post, rest = pre ++ lbracket :: post /\ j = i + length pre
                   /\ ~ In lbracket pre.
Proof.
  revert i; induction rest as [|c rest IH]; intros i; simpl; [discriminate|].
  destruct (N.eqb_spec c lbracket) as [->|Hc].
  - intros [= <-]. exists [], rest. simpl. repeat split; [lia | tauto].
  - intros H. destruct (IH _ H) as (pre & post & -> & -> & Hpre).
    exists (c :: pre), post. simpl. repeat split; [lia|].
    intros [E|E]; [congruence | tauto].
Qed.

Lemma re_search_some text i :
  re_search_lbracket text = Some i ->
  exists pre post, text = pre ++ lbracket :: post /\ i = length pre
                   /\ ~ In lbracket pre.
Proof.
  intros H. destruct (search_from_some _ _ _ H) as (pre & post & ? & ? & ?).
  now exists pre, post.
Qed.

(** ** The loops of [split_options] and of the cross product *)

Lemma slice_length text a b : length (slice text a b) <= length text - a.
Proof.
  unfold slice. rewrite length_firstn, length_skipn. lia.
Qed.

Lemma split_loop_lengths text rest i options depth start :
  Forall (fun o => length o <= length text) options ->
  Forall (fun o => length o <= length text)
         (split_loop text rest i options depth start).
Proof.
  revert i options depth start.
  induction rest as [|c rest IH]; intros i options depth start Hopt; simpl.
  - apply Forall_app; split; [assumption|].
    constructor; [|constructor]. unfold slice_from. rewrite length_skipn. lia.
  - destruct (N.eqb c lbracket); [now apply IH|].
    destruct (N.eqb c rbracket); [now apply IH|].
    destruct (N.eqb c pipe && Z.eqb depth 0); [|now apply IH].
    apply IH. apply Forall_app; split; [assumption|].
    constructor; [|constructor]. pose proof (slice_length text start i). lia.
Qed.

Lemma split_options_lengths text o :
  In o (split_options text) -> length o <= length text.
Proof.
  intros H.
  pose proof (@split_loop_lengths text text 0 [] 0%Z 0 (Forall_nil _)) as F.
  rewrite Forall_forall in F. now apply F.
Qed.

Lemma split_loop_nonempty text rest i options depth start :
  split_loop text rest i options depth start <> [].
Proof.
  revert i options depth start.
  induction rest as [|c rest IH]; intros i options depth start; simpl.
  - destruct options; discriminate.
  - destruct (N.eqb c lbracket); [apply IH|].
    destruct (N.eqb c rbracket); [apply IH|].
    destruct (N.eqb c pipe && Z.eqb depth 0); apply IH.
Qed.

Lemma for_each_total {A B : Type} (l : list A) (body : A -> option (list B))
      (f : A -> list B) :
  (forall x, In x l -> body x = Some (f x)) ->
  for_each l body = Some (flat_map f l).
Proof.
  induction l as [|x l IH]; intros H; simpl; [reflexivity|].
  rewrite (H x) by now left.
  rewrite IH by (intros y Hy; apply H; now right). reflexivity.
Qed.

(** ** Enough fuel: the recursion is on strictly shorter texts *)

Lemma gvr_fuel_step fuel text (g : str -> list str) :
  (forall x, length x < length text -> gvr_fuel fuel x = Some (g x)) ->
  gvr_fuel (S fuel) text = Some (gvr_step g text).
Proof.
  intros Hg. unfold gvr_step. simpl.
  destruct (re_search_lbracket text) as [i|] eqn:Hs; [|reflexivity].
  destruct (find_matching_bracket text i) as [j|]; [|reflexivity].
  destruct (re_search_some _ _ Hs) as (pre & post & Ht & _ & _).
  assert (Hlen : 0 < length text) by (subst text; rewrite length_app; simpl; lia).
  apply for_each_total. intros o Ho.
  apply split_options_lengths in Ho.
  pose proof (slice_length text (i + 1) j).
  rewrite Hg by lia.
  apply for_each_total. intros v _.
  rewrite Hg; [reflexivity|].
  unfold slice_from. rewrite length_skipn. lia.
Qed.

Lemma gvr_fuel_enough text :
  forall fuel, length text < fuel ->
    gvr_fuel fuel text = Some (generate_variations_recursive text).
Proof.
  induction text as [text IH] using (induction_ltof1 _ (@length char)).
  unfold ltof in IH.
  assert (Hstep : forall fuel, length text <= fuel ->
            gvr_fuel (S fuel) text
            = Some (gvr_step generate_variations_recursive text)).
  { intros fuel Hf. apply gvr_fuel_step. intros x Hx. apply IH; lia. }
  assert (Hdef : generate_variations_recursive text
                 = gvr_step generate_variations_recursive text).
  { unfold generate_variations_recursive at 1. now rewrite Hstep. }
  intros [|fuel] Hf; [lia|]. rewrite Hdef. apply Hstep. lia.
Qed.

(** The defining equation of the source's recursion. *)
Lemma gvr_unfold text :
  generate_variations_recursive text
  = gvr_step generate_variations_recursive text.
Proof.
  pose proof (gvr_fuel_enough text _ (Nat.lt_succ_diag_r _)) as H.
  rewrite (@gvr_fuel_step (length text) text generate_variations_recursive) in H.
  - now injection H.
  - intros x Hx. now apply gvr_fuel_enough.
Qed.

(** ** Whitespace normalization *)

Lemma sub_spaces_from_spec s :
  forall in_run,
    has_double_space (sub_spaces_from in_run s) = false
    /\ (in_run = true -> starts_with is_space (sub_spaces_from in_run s) = false).
Proof.
  induction s as [|c s IH]; intros in_run; [now split|].
  cbn [sub_spaces_from]. fold (is_space c). destruct (is_space c) eqn:Hc.
  - destruct (IH true) as [Hd Hs]. specialize (Hs eq_refl).
    destruct in_run; [now split|].
    cbn [has_double_space]. rewrite Hs, Hd.
    split; [now rewrite andb_false_r | discriminate].
  - destruct (IH false) as [Hd _].
    cbn [has_double_space starts_with]. rewrite Hc, Hd.
    split; [reflexivity | auto].
Qed.

Lemma sub_spaces_from_id s :
  forall in_run,
    has_double_space s = false ->
    (in_run = true -> starts_with is_space s = false) ->
    sub_spaces_from in_run s = s.
Proof.
  induction s as [|c s IH]; intros in_run Hd Hs; simpl in *; [reflexivity|].
  apply orb_false_iff in Hd as [Hcs Hd]. fold (is_space c).
  destruct (is_space c) eqn:Hc; simpl in Hcs.
  - destruct in_run; [now specialize (Hs eq_refl)|].
    apply N.eqb_eq in Hc. subst c. f_equal. apply IH; auto.
  - f_equal. apply IH; [assumption | discriminate].
Qed.

Lemma has_double_space_app a b :
  has_double_space (a ++ b) = false ->
  has_double_space a = false /\ has_double_space b = false.
Proof.
  induction a as [|c a IH]; simpl; [now split|].
  intros H. apply orb_false_iff in H as [H1 H2].
  destruct (IH H2) as [Ha Hb]. split; [|assumption].
  rewrite Ha, orb_false_r.
  destruct (is_space c); [|reflexivity]. simpl in *.
  destruct a; [reflexivity | exact H1].
Qed.

Lemma lstrip_decompose s :
  exists a, s = a ++ lstrip s /\ forallb isspace a = true.
Proof.
  induction s as [|c s (a & Hs & Ha)]; simpl.
  - now exists [].
  - destruct (isspace c) eqn:Hc.
    + exists (c :: a). simpl. rewrite Hc, Ha. split; [now f_equal | reflexivity].
    + now exists [].
Qed.

Lemma rstrip_decompose s :
  exists b, s = rstrip s ++ b /\ forallb isspace b = true.
Proof.
  destruct (lstrip_decompose (rev s)) as (a & Hs & Ha).
  exists (rev a). split.
  - unfold rstrip. rewrite <- rev_app_distr, <- Hs. symmetry. apply rev_involutive.
  - rewrite forallb_forall in *. intros x Hx. apply Ha. now apply in_rev.
Qed.

Lemma lstrip_starts s : starts_with isspace (lstrip s) = false.
Proof.
  induction s as [|c s IH]; simpl; [reflexivity|].
  destruct (isspace c) eqn:Hc; [assumption | simpl; assumption].
Qed.

Lemma lstrip_id s : starts_with isspace s = false -> lstrip s = s.
Proof. destruct s as [|c s]; simpl; [reflexivity | now intros ->]. Qed.

Lemma rstrip_id s : ends_with isspace s = false -> rstrip s = s.
Proof.
  unfold ends_with, rstrip. intros H. rewrite lstrip_id by assumption.
  apply rev_involutive.
Qed.

Lemma rstrip_ends s : ends_with isspace (rstrip s) = false.
Proof.
  unfold ends_with, rstrip. rewrite rev_involutive. apply lstrip_starts.
Qed.

Lemma rstrip_starts s :
  starts_with isspace s = false -> starts_with isspace (rstrip s) = false.
Proof.
  destruct (rstrip_decompose s) as (b & Hs & _).
  destruct (rstrip s) as [|c r]; [reflexivity|].
  rewrite Hs. simpl. auto.
Qed.

Lemma strip_no_double_space s :
  has_double_space s = false -> has_double_space (strip s) = false.
Proof.
  intros H. unfold strip.
  destruct (lstrip_decompose s) as (a & Hs & _).
  destruct (rstrip_decompose (lstrip s)) as (b & Hl & _).
  rewrite Hs in H. apply has_double_space_app in H as [_ H].
  rewrite Hl in H. now apply has_double_space_app in H as [H _].
Qed.

Lemma normalize_normalized s : normalized (normalize s).
Proof.
  unfold normalized, normalize. repeat split.
  - apply strip_no_double_space. apply (sub_spaces_from_spec s false).
  - apply rstrip_starts, lstrip_starts.
  - apply rstrip_ends.
Qed.

Lemma normalized_fixpoint s : normalized s -> normalize s = s.
Proof.
  intros (Hd & Hs & He). unfold normalize, sub_spaces.
  rewrite sub_spaces_from_id by (assumption || discriminate).
  unfold strip. rewrite lstrip_id by assumption. now apply rstrip_id.
Qed.

Lemma normalize_idempotent s : normalize (normalize s) = normalize s.
Proof. apply normalized_fixpoint, normalize_normalized. Qed.

(** ** Depth counting *)

Lemma search_from_firstn l s i n :
  search_from l s = Some i -> i < s + n ->
  search_from (firstn n l) s = Some i.
Proof.
  revert s n; induction l as [|c l IH]; intros s n; simpl; [discriminate|].
  destruct n as [|n]; simpl.
  - destruct (N.eqb c lbracket).
    + intros [= <-]; lia.
    + intros H. destruct (search_from_some _ _ _ H) as (? & ? & _ & -> & _). lia.
  - destruct (N.eqb c lbracket); [trivial|].
    intros H Hi. apply IH; [assumption | lia].
Qed.

Lemma scan_close_bounds l :
  forall i d j, scan_close l i d = Some j -> i <= j < i + length l.
Proof.
  induction l as [|c l IH]; intros i d j; simpl; [discriminate|].
  destruct (N.eqb c lbracket); [intros H; apply IH in H; lia|].
  destruct (N.eqb c rbracket).
  - destruct (Z.eqb (d - 1) 0); [intros [= <-]; lia | intros H; apply IH in H; lia].
  - intros H; apply IH in H; lia.
Qed.

(** Starting lower, the depth reaches zero as well. *)
Lemma scan_close_lower l :
  forall i d e j, (1 <= e <= d)%Z -> scan_close l i d = Some j ->
    exists j', scan_close l i e = Some j'.
Proof.
  induction l as [|c l IH]; intros i d e j Hde; simpl; [discriminate|].
  destruct (N.eqb c lbracket); [apply IH; lia|].
  destruct (N.eqb c rbracket); [|apply IH; lia].
  destruct (Z.eqb_spec (e - 1) 0); [eauto|].
  destruct (Z.eqb_spec (d - 1) 0); [lia|]. apply IH; lia.
Qed.

(** A '[' met before the closer is closed too. *)
Lemma scan_close_inner l1 l2 :
  forall i d j, (1 <= d)%Z ->
    scan_close (l1 ++ lbracket :: l2) i d = Some j ->
    i + length l1 <= j ->
    exists j', scan_close l2 (S (i + length l1)) 1 = Some j'.
Proof.
  induction l1 as [|c l1 IH]; intros i d j Hd; simpl.
  - rewrite Nat.add_0_r. intros H _.
    apply (@scan_close_lower l2 (S i) (d + 1)%Z 1%Z j); [lia | assumption].
  - replace (S (i + S (length l1))) with (S (S i + length l1)) by lia.
    destruct (N.eqb c lbracket).
    { intros H Hj. apply (IH (S i) (d + 1)%Z j); [lia | assumption | lia]. }
    destruct (N.eqb c rbracket).
    + destruct (Z.eqb_spec (d - 1) 0).
      * intros [= <-] Hj. lia.
      * intros H Hj. apply (IH (S i) (d - 1)%Z j); [lia | assumption | lia].
    + intros H Hj. apply (IH (S i) d j); [lia | assumption | lia].
Qed.

Lemma scan_close_firstn l :
  forall i d j n, scan_close l i d = Some j -> j < i + n ->
    scan_close (firstn n l) i d = Some j.
Proof.
  induction l as [|c l IH]; intros i d j n H Hj; [discriminate|].
  pose proof (scan_close_bounds _ _ _ _ H) as Hb.
  destruct n as [|n]; [lia|]. simpl in *.
  destruct (N.eqb c lbracket); [apply IH; [assumption|lia]|].
  destruct (N.eqb c rbracket); [|apply IH; [assumption|lia]].
  destruct (Z.eqb (d - 1) 0); [assumption | apply IH; [assumption|lia]].
Qed.

Lemma scan_close_shift l n :
  forall i d, scan_close l (n + i) d = option_map (Nat.add n) (scan_close l i d).
Proof.
  induction l as [|c l IH]; intros i d; simpl; [reflexivity|].
  rewrite !plus_n_Sm.
  destruct (N.eqb c lbracket); [apply IH|].
  destruct (N.eqb c rbracket); [|apply IH].
  destruct (Z.eqb (d - 1) 0); [reflexivity | apply IH].
Qed.

Lemma find_matching_bracket_bounds text i j :
  find_matching_bracket text i = Some j -> i < j < length text.
Proof.
  unfold find_matching_bracket, slice_from. intros H.
  apply scan_close_bounds in H. rewrite length_skipn in H. lia.
Qed.

Lemma find_matching_bracket_skipn text n m :
  find_matching_bracket text (n + m)
  = option_map (Nat.add n) (find_matching_bracket (skipn n text) m).
Proof.
  unfold find_matching_bracket, slice_from.
  rewrite skipn_skipn, <- scan_close_shift.
  now replace (m + 1 + n) with (n + m + 1) by lia; rewrite Nat.add_assoc.
Qed.

Lemma find_matching_bracket_firstn text i j k :
  find_matching_bracket text i = Some j -> j < k ->
  find_matching_bracket (firstn k text) i = Some j.
Proof.
  unfold find_matching_bracket, slice_from. intros H Hj.
  apply scan_close_bounds in H as Hb.
  rewrite skipn_firstn_comm. apply scan_close_firstn; [assumption | lia].
Qed.

(** A '[' between a '[' and its closer has a closer of its own. *)
Lemma find_matching_bracket_inner text i j k :
  find_matching_bracket text i = Some j ->
  nth_error text k = Some lbracket -> i < k <= j ->
  find_matching_bracket text k <> None.
Proof.
  intros H Hk Hikj.
  destruct (nth_error_split _ _ Hk) as (A & B & Ht & HA).
  unfold find_matching_bracket, slice_from in *.
  assert (E1 : skipn (i + 1) text = skipn (i + 1) A ++ lbracket :: B).
  { rewrite Ht, skipn_app. replace (i + 1 - length A) with 0 by lia. reflexivity. }
  assert (E2 : skipn (k + 1) text = B).
  { rewrite Ht, skipn_app, skipn_all2 by lia.
    replace (k + 1 - length A) with 1 by lia. reflexivity. }
  rewrite E1 in H. rewrite E2.
  apply scan_close_inner in H; [|lia|rewrite length_skipn; lia].
  rewrite length_skipn in H.
  replace (S (i + 1 + (length A - (i + 1)))) with (k + 1) in H by lia.
  destruct H as [j' ->]. discriminate.
Qed.

(** ** Unterminated groups *)

Lemma unmatched_skipn text n m :
  unmatched (skipn n text) m <-> unmatched text (n + m).
Proof.
  unfold unmatched. rewrite nth_error_skipn, find_matching_bracket_skipn.
  destruct (find_matching_bracket (skipn n text) m); simpl; intuition discriminate.
Qed.

Lemma first_unmatched_skipn text n k :
  n <= k -> first_unmatched text k -> first_unmatched (skipn n text) (k - n).
Proof.
  intros Hn [Hk Hmin]. split.
  - apply unmatched_skipn. now replace (n + (k - n)) with k by lia.
  - intros i Hi Hu. apply unmatched_skipn in Hu. apply (Hmin (n + i)); [lia | assumption].
Qed.

Lemma gvr_no_bracket text :
  ~ In lbracket text -> generate_variations_recursive text = [text].
Proof.
  intros H. rewrite gvr_unfold. unfold gvr_step, re_search_lbracket.
  now apply (search_from_none text 0) in H as ->.
Qed.

Lemma map_flat_map_comm {A B C : Type} (h : B -> C) (f : A -> list B) l :
  map h (flat_map f l) = flat_map (fun x => map h (f x)) l.
Proof.
  induction l as [|x l IH]; simpl; [reflexivity|]. now rewrite map_app, IH.
Qed.

Lemma flat_map_ext_in {A B : Type} (f g : A -> list B) l :
  (forall x, In x l -> f x = g x) -> flat_map f l = flat_map g l.
Proof.
  induction l as [|x l IH]; intros H; simpl; [reflexivity|].
  rewrite (H x) by now left. f_equal. apply IH. intros y Hy. apply H. now right.
Qed.

(** Up to the first unterminated '[' the text is expanded as if it ended
    there; the rest is appended, as it is, to every variation. *)
Lemma gvr_unmatched_tail text :
  forall k, first_unmatched text k ->
    generate_variations_recursive text
    = map (fun p => p ++ slice_from text k)
          (generate_variations_recursive (slice_to text k)).
Proof.
  induction text as [text IH] using (induction_ltof1 _ (@length char)).
  unfold ltof in IH. intros k [[Hk Hnone] Hmin].
  unfold slice_from, slice_to.
  destruct (re_search_lbracket text) as [i|] eqn:Hs.
  2:{ apply (search_from_none text 0) in Hs. apply nth_error_In in Hk. tauto. }
  destruct (re_search_some _ _ Hs) as (pre & post & Ht & Hi & Hpre).
  assert (Hik : i <= k).
  { destruct (Nat.le_gt_cases i k) as [|Hlt]; [assumption|]. exfalso.
    rewrite Ht, nth_error_app1 in Hk by lia. apply nth_error_In in Hk. tauto. }
  destruct (find_matching_bracket text i) as [j|] eqn:Hm.
  - (* the leftmost group is well formed: it ends before [k] *)
    assert (Hjk : j < k).
    { destruct (Nat.lt_ge_cases j k) as [|Hge]; [assumption|]. exfalso.
      destruct (Nat.eq_dec i k) as [->|Hne]; [congruence|].
      apply (@find_matching_bracket_inner text i j k); auto. lia. }
    pose proof (find_matching_bracket_bounds _ _ _ Hm) as Hb.
    assert (Hs' : re_search_lbracket (firstn k text) = Some i).
    { apply search_from_firstn; [assumption | lia]. }
    assert (Hm' : find_matching_bracket (firstn k text) i = Some j).
    { now apply find_matching_bracket_firstn. }
    rewrite (gvr_unfold text), (gvr_unfold (firstn k text)).
    unfold gvr_step. rewrite Hs, Hm, Hs', Hm'.
    unfold slice_to, slice_from, slice.
    rewrite firstn_firstn, Nat.min_l by lia.
    rewrite !skipn_firstn_comm, firstn_firstn, Nat.min_l by lia.
    rewrite (IH (skipn (j + 1) text)) with (k := k - (j + 1)).
    2:{ rewrite length_skipn. lia. }
    2:{ apply first_unmatched_skipn; [lia | now split]. }
    unfold slice_from, slice_to. rewrite skipn_skipn.
    replace (k - (j + 1) + (j + 1)) with k by lia.
    rewrite map_flat_map_comm. apply flat_map_ext_in. intros o _.
    rewrite map_flat_map_comm. apply flat_map_ext_in. intros v _.
    rewrite !map_map. apply map_ext. intros sv. now rewrite <- !app_assoc.
  - (* the leftmost '[' is the unterminated one *)
    assert (i = k) as ->.
    { destruct (Nat.eq_dec i k) as [|Hne]; [assumption|]. exfalso.
      apply (Hmin i); [lia|]. split; [|assumption].
      rewrite Ht, Hi, nth_error_app2, Nat.sub_diag by lia. reflexivity. }
    rewrite gvr_unfold at 1. unfold gvr_step. rewrite Hs, Hm.
    rewrite gvr_no_bracket.
    + simpl. now rewrite firstn_skipn.
    + rewrite Ht, Hi, firstn_app, Nat.sub_diag, firstn_all. simpl.
      now rewrite app_nil_r.
Qed.

(** ** [split_options] by structure *)

Lemma slice_snoc pre c rest start :
  start <= length pre ->
  slice (pre ++ c :: rest) start (S (length pre))
  = slice (pre ++ c :: rest) start (length pre) ++ [c].
Proof.
  intros H. unfold slice. rewrite skipn_app.
  replace (start - length pre) with 0 by lia. change (skipn 0 ?l) with l.
  assert (Hlen : length (skipn start pre) = length pre - start)
    by apply length_skipn.
  rewrite !firstn_app, Hlen.
  replace (S (length pre) - start - (length pre - start)) with 1 by lia.
  rewrite Nat.sub_diag.
  rewrite (firstn_all2 (n := S (length pre) - start)) by lia.
  rewrite (firstn_all2 (n := length pre - start)) by lia.
  simpl. now rewrite app_nil_r.
Qed.

Lemma split_loop_split_from rest :
  forall pre options depth start,
    start <= length pre ->
    split_loop (pre ++ rest) rest (length pre) options depth start
    = options ++ split_from (slice (pre ++ rest) start (length pre)) rest depth.
Proof.
  induction rest as [|c rest IH]; intros pre options depth start Hstart; simpl.
  - f_equal. f_equal. unfold slice_from, slice. symmetry. apply firstn_all2.
    rewrite length_skipn, app_nil_r. lia.
  - assert (IH' : forall options depth start, start <= S (length pre) ->
       split_loop (pre ++ c :: rest) rest (S (length pre)) options depth start
       = options ++ split_from (slice (pre ++ c :: rest) start (S (length pre)))
                               rest depth).
    { intros o d s Hs. specialize (IH (pre ++ [c]) o d s).
      rewrite <- app_assoc, length_app, Nat.add_1_r in IH. apply IH. lia. }
    destruct (N.eqb c lbracket);
      [rewrite IH', slice_snoc by lia; reflexivity|].
    destruct (N.eqb c rbracket);
      [rewrite IH', slice_snoc by lia; reflexivity|].
    destruct (N.eqb c pipe && Z.eqb depth 0);
      [|rewrite IH', slice_snoc by lia; reflexivity].
    rewrite Nat.add_1_r, IH', <- app_assoc by lia. simpl.
    unfold slice at 2. now rewrite Nat.sub_diag.
Qed.

Lemma split_options_split_from text : split_options text = split_from [] text 0.
Proof.
  unfold split_options. apply (@split_loop_split_from text [] [] 0%Z 0). simpl. lia.
Qed.

Lemma split_from_pipe x y :
  forall current depth, (depth + net_depth x = 0)%Z ->
    split_from current (x ++ pipe :: y) depth
    = split_from current x depth ++ split_from [] y 0.
Proof.
  induction x as [|c x IH]; intros current depth Hd; simpl in *.
  - replace depth with 0%Z by lia. reflexivity.
  - destruct (N.eqb c lbracket); [apply IH; lia|].
    destruct (N.eqb c rbracket); [apply IH; lia|].
    destruct (N.eqb c pipe && Z.eqb depth 0); [|apply IH; lia].
    simpl. f_equal. apply IH; lia.
Qed.

(** A '|' outside every nested group separates the options on its left
    from those on its right. *)
Lemma split_options_pipe x y :
  net_depth x = 0%Z ->
  split_options (x ++ pipe :: y) = split_options x ++ split_options y.
Proof.
  intros H. rewrite !split_options_split_from. apply split_from_pipe. lia.
Qed.

(** ** The result is never empty *)

Lemma flat_map_nonempty {A B : Type} (f : A -> list B) l :
  l <> [] -> (forall x, In x l -> f x <> []) -> flat_map f l <> [].
Proof.
  destruct l as [|x l]; [congruence|]. intros _ H. simpl.
  specialize (H x (or_introl eq_refl)).
  destruct (f x); [congruence | discriminate].
Qed.

Lemma gvr_nonempty text : generate_variations_recursive text <> [].
Proof.
  induction text as [text IH] using (induction_ltof1 _ (@length char)).
  unfold ltof in IH. rewrite gvr_unfold. unfold gvr_step.
  destruct (re_search_lbracket text) as [i|] eqn:Hs; [|discriminate].
  destruct (find_matching_bracket text i) as [j|] eqn:Hm; [|discriminate].
  apply find_matching_bracket_bounds in Hm.
  apply flat_map_nonempty; [apply split_loop_nonempty|].
  intros o Ho. apply split_options_lengths in Ho.
  pose proof (slice_length text (i + 1) j).
  apply flat_map_nonempty; [apply IH; lia|].
  intros v _ E. apply map_eq_nil in E. revert E. apply IH.
  unfold slice_from. rewrite length_skipn. lia.
Qed.

(** Before the first unterminated '[' every group is well formed. *)
Lemma first_unmatched_prefix_matched text k i :
  first_unmatched text k ->
  nth_error (slice_to text k) i = Some lbracket ->
  exists j, find_matching_bracket (slice_to text k) i = Some j.
Proof.
  intros [[Hk Hnone] Hmin] Hi. unfold slice_to in *.
  rewrite nth_error_firstn in Hi.
  destruct (Nat.ltb_spec i k) as [Hik|]; [|discriminate].
  destruct (find_matching_bracket text i) as [j|] eqn:Hm.
  - exists j. apply find_matching_bracket_firstn; [assumption|].
    destruct (Nat.lt_ge_cases j k) as [|Hge]; [assumption|]. exfalso.
    apply (@find_matching_bracket_inner text i j k); auto.
  - exfalso. apply (Hmin i Hik). now split.
Qed.

(** ** What normalization keeps *)

Lemma sub_spaces_from_visible s :
  forall in_run, filter visible (sub_spaces_from in_run s) = filter visible s.
Proof.
  induction s as [|c s IH]; intros in_run; simpl; [reflexivity|].
  destruct (N.eqb_spec c space) as [->|Hc].
  - destruct in_run; simpl; apply IH.
  - simpl. now rewrite IH.
Qed.

Lemma filter_visible_spaces a : forallb isspace a = true -> filter visible a = [].
Proof.
  induction a as [|c a IH]; simpl; [reflexivity|].
  unfold visible at 1. destruct (isspace c); simpl; [assumption | discriminate].
Qed.

Lemma normalize_visible s : filter visible (normalize s) = filter visible s.
Proof.
  unfold normalize, sub_spaces, strip.
  rewrite <- (sub_spaces_from_visible s false).
  destruct (lstrip_decompose (sub_spaces_from false s)) as (a & Hs & Ha).
  destruct (rstrip_decompose (lstrip (sub_spaces_from false s))) as (b & Hl & Hb).
  rewrite Hs at 2. rewrite Hl at 2.
  rewrite !filter_app, (filter_visible_spaces _ Ha), (filter_visible_spaces _ Hb).
  now rewrite app_nil_r.
Qed.

(** ** How deep the recursion goes *)

Lemma count_lbracket_app a b :
  count_lbracket (a ++ b) = count_lbracket a + count_lbracket b.
Proof. unfold count_lbracket. now rewrite filter_app, length_app. Qed.

Lemma count_lbracket_firstn n l : count_lbracket (firstn n l) <= count_lbracket l.
Proof.
  rewrite <- (firstn_skipn n l) at 2. rewrite count_lbracket_app. lia.
Qed.

Lemma count_lbracket_skipn n l : count_lbracket (skipn n l) <= count_lbracket l.
Proof.
  rewrite <- (firstn_skipn n l) at 2. rewrite count_lbracket_app. lia.
Qed.

Lemma split_from_count rest : forall current depth o,
  In o (split_from current rest depth) ->
  count_lbracket o <= count_lbracket current + count_lbracket rest.
Proof.
  induction rest as [|c rest IH]; intros current depth o.
  - simpl. intros [<-|[]]. lia.
  - assert (E1 : count_lbracket (current ++ [c])
                 = count_lbracket current + count_lbracket [c])
      by apply count_lbracket_app.
    assert (E2 : count_lbracket (c :: rest)
                 = count_lbracket [c] + count_lbracket rest)
      by apply (count_lbracket_app [c] rest).
    assert (E3 : count_lbracket [] = 0) by reflexivity.
    cbn [split_from].
    destruct (N.eqb c lbracket); [intros H; apply IH in H; lia|].
    destruct (N.eqb c rbracket); [intros H; apply IH in H; lia|].
    destruct (N.eqb c pipe && Z.eqb depth 0); [|intros H; apply IH in H; lia].
    intros [<-|H]; [lia|]. apply IH in H. lia.
Qed.

Lemma split_options_count body o :
  In o (split_options body) -> count_lbracket o <= count_lbracket body.
Proof.
  rewrite split_options_split_from. intros H. apply split_from_count in H.
  simpl in H. exact H.
Qed.

(** Each nested call has at least one '[' less: the interpreter only has to
    allow more nested calls than the text has '['. *)
Lemma gvr_fuel_count fuel : forall text,
  count_lbracket text < fuel ->
  gvr_fuel fuel text = Some (generate_variations_recursive text).
Proof.
  induction fuel as [|fuel IH]; intros text H; [lia|].
  rewrite (gvr_unfold text). unfold gvr_step. simpl.
  destruct (re_search_lbracket text) as [i|] eqn:Hs; [|reflexivity].
  destruct (find_matching_bracket text i) as [j|] eqn:Hm; [|reflexivity].
  destruct (re_search_some _ _ Hs) as (pre & rest & Ht & Hi & _).
  pose proof (find_matching_bracket_bounds _ _ _ Hm) as Hb.
  assert (Hrest : skipn (i + 1) text = rest).
  { rewrite Ht, Hi, skipn_app, skipn_all2 by lia.
    replace (length pre + 1 - length pre) with 1 by lia. reflexivity. }
  assert (Hc : count_lbracket text = count_lbracket pre + S (count_lbracket rest)).
  { rewrite Ht, count_lbracket_app. reflexivity. }
  apply for_each_total. intros o Ho.
  apply split_options_count in Ho. unfold slice in Ho. rewrite Hrest in Ho.
  pose proof (count_lbracket_firstn (j - (i + 1)) rest).
  rewrite IH by lia.
  apply for_each_total. intros v _.
  rewrite IH; [reflexivity|].
  unfold slice_from. replace (j + 1) with ((j - i) + (i + 1)) by lia.
  rewrite <- skipn_skipn, Hrest.
  pose proof (count_lbracket_skipn (j - i) rest). lia.
Qed.

(** ["[a]" * n] needs one nested call per group and one more. *)
Lemma gvr_fuel_groups_in_a_row fuel : forall n,
  fuel <= n -> gvr_fuel fuel (groups_in_a_row n) = None.
Proof.
  induction fuel as [|fuel IH]; intros n Hn; [reflexivity|].
  destruct n as [|n]; [lia|].
  assert (IHn : gvr_fuel fuel (groups_in_a_row n) = None) by (apply IH; lia).
  change (groups_in_a_row (S n))
    with (lbracket :: 97%N :: rbracket :: groups_in_a_row n).
  revert IHn. generalize (groups_in_a_row n) as rest. intros rest IHn.
  cbn [gvr_fuel].
  change (re_search_lbracket (lbracket :: 97%N :: rbracket :: rest)) with (Some 0).
  cbn iota.
  change (find_matching_bracket (lbracket :: 97%N :: rbracket :: rest) 0)
    with (Some 2).
  cbn iota zeta.
  change (slice (lbracket :: 97%N :: rbracket :: rest) (0 + 1) 2) with [97%N].
  change (split_options [97%N]) with [[97%N]].
  change (slice_from (lbracket :: 97%N :: rbracket :: rest) (2 + 1)) with rest.
  cbn [for_each].
  destruct fuel as [|fuel']; [reflexivity|].
  change (gvr_fuel (S fuel') [97%N]) with (Some [[97%N]]).
  cbn [for_each]. rewrite IHn. reflexivity.
Qed.

(** * The specification's claims *)

(** C1 (as the code has it): [expand("A[bc")] is the one-element sequence
    holding the text unchanged, ["A[bc"], the unmatched '[' included; the
    very first call returns it, with no failure. *)
Theorem unbalanced_example_keeps_bracket :
  expand (py "A[bc") = [py "A[bc"]
  /\ gvr_fuel 1 (py "A[bc") = Some [py "A[bc"].
Proof. split; vm_compute; reflexivity. Qed.

(** C1 (as the spec words it): [expand("A[bc")] is not [["Abc"]]. *)
Lemma unbalanced_example_not_Abc : expand (py "A[bc") <> [py "Abc"].
Proof. vm_compute. discriminate. Qed.

(** C2 (as the code has it): when a template has an unterminated '[', the
    first one at index [k], that group is no failure of its own: the call
    that meets it as its leftmost '[' returns its text alone at once, and
    the whole expansion returns as soon as the interpreter allows more
    nested calls than the template has '['.  Before the final normalization
    the variations are those of the text before [k], all of whose groups
    are well formed, each followed by the text from [k] on as it is; the
    returned variations are these strings normalized. *)
Theorem unterminated_tail_literal (text : str) (k : nat)
        (H : first_unmatched text k) :
  (forall depth, gvr_fuel (S depth) (slice_from text k) = Some [slice_from text k])
  /\ (forall depth, count_lbracket text < depth ->
                    generate_text_variations_within depth text = Some (expand text))
  /\ generate_variations_recursive text
     = map (fun p => p ++ slice_from text k)
           (generate_variations_recursive (slice_to text k))
  /\ (forall i, nth_error (slice_to text k) i = Some lbracket ->
                exists j, find_matching_bracket (slice_to text k) i = Some j)
  /\ expand text
     = map (fun p => normalize (p ++ slice_from text k))
           (generate_variations_recursive (slice_to text k)).
Proof.
  repeat split.
  - intros depth. destruct H as [Hk _].
    replace k with (k + 0) in Hk by lia. apply unmatched_skipn in Hk.
    destruct Hk as [Hl Hm]. unfold slice_from in *.
    destruct (skipn k text) as [|c tail] eqn:E; [discriminate|].
    simpl in Hl. injection Hl as ->.
    cbn [gvr_fuel]. change (re_search_lbracket (lbracket :: tail)) with (Some 0).
    cbn iota. now rewrite Hm.
  - intros depth Hd. unfold generate_text_variations_within.
    now rewrite gvr_fuel_count.
  - now apply gvr_unmatched_tail.
  - intros i. now apply first_unmatched_prefix_matched.
  - unfold expand, generate_text_variations.
    rewrite (gvr_unmatched_tail _ _ H), map_map. reflexivity.
Qed.

Lemma unterminated_tail_literal_witness :
  first_unmatched (py "[a|b][c  d ") 5
  /\ gvr_fuel 1 (slice_from (py "[a|b][c  d ") 5)
     = Some [slice_from (py "[a|b][c  d ") 5]
  /\ generate_variations_recursive (py "[a|b][c  d ")
     = map (fun p => p ++ slice_from (py "[a|b][c  d ") 5)
           (generate_variations_recursive (slice_to (py "[a|b][c  d ") 5)).
Proof.
  assert (H : first_unmatched (py "[a|b][c  d ") 5).
  { split; [split; reflexivity|].
    intros i Hi [H1 H2].
    do 5 (destruct i as [|i]; [vm_compute in H1, H2; discriminate|]). lia. }
  split; [exact H|]. split.
  - exact (proj1 (unterminated_tail_literal _ _ H) 0).
  - exact (proj1 (proj2 (proj2 (unterminated_tail_literal _ _ H)))).
Defined.

(** C2 (as the spec words it, on the returned variations): in ["[a  b"] the
    first '[' is unterminated, and the only returned variation, ["[a b"],
    does not contain the text ["[a  b"]. *)
Lemma unterminated_tail_not_verbatim_after_normalize :
  first_unmatched (py "[a  b") 0 /\ ~ tail_kept_verbatim (py "[a  b") 0.
Proof.
  split.
  - split; [split; reflexivity | intros i Hi; lia].
  - unfold tail_kept_verbatim. intros F.
    assert (Hexp : generate_text_variations (py "[a  b") = [py "[a b"])
      by (vm_compute; reflexivity).
    rewrite Hexp in F. apply Forall_inv in F. destruct F as (p & q & E).
    apply (f_equal (@length char)) in E. rewrite !length_app in E.
    assert (L1 : length (py "[a b") = 4) by reflexivity.
    assert (L2 : length (slice_from (py "[a  b") 0) = 5) by reflexivity.
    rewrite L1, L2 in E. lia.
Qed.

(** C3: when the leftmost '[' (index [i]) has its matching ']' (index [j]),
    the expansion before normalization is the concatenation, over the
    alternatives in order, over the expansions [v] of the alternative in
    order, over the expansions [s] of the suffix in order, of
    [prefix + v + s]; and [expand("A[x|y|z]B")] is [["AxB", "AyB", "AzB"]]. *)
Theorem cross_product_order :
  (forall text i j,
     re_search_lbracket text = Some i ->
     find_matching_bracket text i = Some j ->
     generate_variations_recursive text
     = flat_map (fun alternative =>
         flat_map (fun v =>
           map (fun s => slice_to text i ++ v ++ s)
               (generate_variations_recursive (slice_from text (j + 1))))
           (generate_variations_recursive alternative))
         (split_options (slice text (i + 1) j)))
  /\ expand (py "A[x|y|z]B") = [py "AxB"; py "AyB"; py "AzB"].
Proof.
  split; [|vm_compute; reflexivity].
  intros text i j Hs Hm. rewrite gvr_unfold at 1. unfold gvr_step.
  now rewrite Hs, Hm.
Qed.

Lemma cross_product_order_witness :
  re_search_lbracket (py "A[x|y|z]B") = Some 1
  /\ find_matching_bracket (py "A[x|y|z]B") 1 = Some 7
  /\ generate_variations_recursive (py "A[x|y|z]B")
     = flat_map (fun alternative =>
         flat_map (fun v =>
           map (fun s => slice_to (py "A[x|y|z]B") 1 ++ v ++ s)
               (generate_variations_recursive (slice_from (py "A[x|y|z]B") (7 + 1))))
           (generate_variations_recursive alternative))
         (split_options (slice (py "A[x|y|z]B") (1 + 1) 7)).
Proof.
  split; [reflexivity|]. split; [reflexivity|].
  apply (proj1 cross_product_order); reflexivity.
Defined.

(** C4: the recursion itself does no normalization (its defining equation
    only concatenates), and [expand] normalizes each string of the final
    list once; so every returned variation has no two consecutive spaces
    and no leading or trailing whitespace.  For ["A  [x| y ] B"] the strings
    before normalization are ["A  x B"] and ["A   y  B"], the returned ones
    ["A x B"] and ["A y B"]. *)
Theorem normalization_once_at_top :
  (forall text,
     generate_variations_recursive text
     = gvr_step generate_variations_recursive text
     /\ expand text = map normalize (generate_variations_recursive text)
     /\ Forall normalized (expand text))
  /\ generate_variations_recursive (py "A  [x| y ] B")
     = [py "A  x B"; py "A   y  B"]
  /\ expand (py "A  [x| y ] B") = [py "A x B"; py "A y B"].
Proof.
  split; [|split; vm_compute; reflexivity].
  intros text. split; [apply gvr_unfold|]. split; [reflexivity|].
  unfold expand, generate_text_variations. apply Forall_forall.
  intros v Hv. apply in_map_iff in Hv as (x & <- & _).
  apply normalize_normalized.
Qed.

(** C5: a '|' outside the nested groups of a body that is followed by
    another '|', that ends the body or that starts it gives an empty
    alternative; the empty text expands to the empty string alone; and
    [expand("[a|]")] is [["a", ""]]. *)
Theorem empty_alternative :
  (forall x y, net_depth x = 0%Z ->
     split_options (x ++ pipe :: pipe :: y)
     = split_options x ++ [] :: split_options y
     /\ split_options (x ++ [pipe]) = split_options x ++ [[]])
  /\ (forall y, split_options (pipe :: y) = [] :: split_options y)
  /\ generate_variations_recursive [] = [[]]
  /\ expand (py "[a|]") = [py "a"; py ""].
Proof.
  assert (Hstart : forall y, split_options (pipe :: y) = [] :: split_options y).
  { intros y. exact (@split_options_pipe [] y eq_refl). }
  repeat split; try assumption; try (vm_compute; reflexivity).
  - now rewrite split_options_pipe, Hstart.
  - now rewrite split_options_pipe.
Qed.

Lemma empty_alternative_witness :
  net_depth (py "[a|b]") = 0%Z
  /\ split_options (py "[a|b]" ++ pipe :: pipe :: py "c")
     = split_options (py "[a|b]") ++ [] :: split_options (py "c").
Proof.
  split; [reflexivity|].
  apply (proj1 empty_alternative (py "[a|b]") (py "c")). reflexivity.
Defined.

(** C6: [expand("[[a|b],[c|d]|e]")] has exactly 5 elements: the 2 x 2
    variations of the first alternative ["[a|b],[c|d]"], then ["e"]. *)
Theorem nested_groups_five :
  expand (py "[[a|b],[c|d]|e]")
  = [py "a,c"; py "a,d"; py "b,c"; py "b,d"; py "e"]
  /\ length (expand (py "[[a|b],[c|d]|e]")) = 2 * 2 + 1
  /\ split_options (py "[a|b],[c|d]|e") = [py "[a|b],[c|d]"; py "e"]
  /\ length (generate_variations_recursive (py "[a|b],[c|d]")) = 2 * 2.
Proof. repeat split; vm_compute; reflexivity. Qed.

(** C7: a template with no '[' has the single variation [normalize t];
    normalization removes whitespace only, every other character (a ']' or
    a '|' too) stays, in order. *)
Theorem no_bracket_single_variation (t : str) (H : ~ In lbracket t) :
  expand t = [normalize t]
  /\ filter visible (normalize t) = filter visible t.
Proof.
  split; [|apply normalize_visible].
  unfold expand, generate_text_variations. now rewrite gvr_no_bracket.
Qed.

Lemma no_bracket_single_variation_witness :
  ~ In lbracket (py " a]  b|c ")
  /\ expand (py " a]  b|c ") = [normalize (py " a]  b|c ")]
  /\ normalize (py " a]  b|c ") = py "a] b|c".
Proof.
  assert (H : ~ In lbracket (py " a]  b|c ")).
  { intros HIn. simpl in HIn.
    repeat (destruct HIn as [HIn|HIn]; [discriminate|]). exact HIn. }
  split; [exact H|].
  split; [exact (proj1 (no_bracket_single_variation _ H)) | reflexivity].
Defined.

(** C8 (as the code has it): the expansion returns, with the variations
    normalized, on every string as soon as the interpreter allows more
    nested calls than the string has '['; ["[a]" * n] does need more than
    [n], so whatever the recursion limit some input exceeds it; and
    [expand("")] is the single empty string, from the first call. *)
Theorem expand_returns_within_depth :
  (forall text depth,
     count_lbracket text < depth ->
     generate_text_variations_within depth text = Some (expand text))
  /\ (forall limit n,
        limit <= n ->
        generate_text_variations_within limit (groups_in_a_row n) = None)
  /\ generate_text_variations_within 1 (py "") = Some [py ""]
  /\ expand (py "") = [py ""].
Proof.
  unfold generate_text_variations_within. repeat split.
  - intros text depth Hd. now rewrite gvr_fuel_count.
  - intros limit n Hn. now rewrite gvr_fuel_groups_in_a_row.
Qed.

Lemma expand_returns_within_depth_witness :
  count_lbracket (py "A[x|y|z]B") < 2
  /\ generate_text_variations_within 2 (py "A[x|y|z]B")
     = Some [py "AxB"; py "AyB"; py "AzB"].
Proof.
  assert (H : count_lbracket (py "A[x|y|z]B") < 2) by (vm_compute; lia).
  split; [exact H|].
  exact (proj1 expand_returns_within_depth (py "A[x|y|z]B") 2 H).
Defined.

(** C8 (as the spec words it): with 1000 nested calls allowed, CPython's
    default limit for the whole stack, the expansion of ["[a]" * 1000] does
    not return. *)
Lemma expand_exceeds_recursion_limit :
  generate_text_variations_within 1000 (groups_in_a_row 1000) = None.
Proof.
  unfold generate_text_variations_within.
  now rewrite gvr_fuel_groups_in_a_row.
Qed.

(** C9: normalizing a returned variation again gives it back unchanged. *)
Theorem normalize_noop_on_variations (text v : str) (H : In v (expand text)) :
  normalize v = v.
Proof.
  unfold expand, generate_text_variations in H.
  apply in_map_iff in H as (x & <- & _). apply normalize_idempotent.
Qed.

Lemma normalize_noop_on_variations_witness :
  In (py "A y B") (expand (py "A  [x| y ] B"))
  /\ normalize (py "A y B") = py "A y B".
Proof.
  assert (H : In (py "A y B") (expand (py "A  [x| y ] B"))).
  { vm_compute. right. left. reflexivity. }
  split; [exact H | exact (normalize_noop_on_variations _ _ H)].
Defined.

(** C10: [expand] never returns the empty list, no more than the recursion
    before normalization; a group body always has at least one
    alternative. *)
Theorem expand_nonempty :
  (forall text,
     1 <= length (generate_variations_recursive text)
     /\ 1 <= length (expand text))
  /\ (forall body, 1 <= length (split_options body)).
Proof.
  assert (Hpos : forall (A : Type) (l : list A), l <> [] -> 1 <= length l).
  { intros A [|x l] Hl; [congruence | simpl; lia]. }
  split.
  - intros text. unfold expand, generate_text_variations. rewrite length_map.
    split; apply Hpos, gvr_nonempty.
  - intros body. apply Hpos, split_loop_nonempty.
Qed.

(** * Further properties of the code *)

(** ** [find_matching_bracket]: what it finds *)

Lemma scan_close_sound l :
  forall i d j, (1 <= d)%Z -> scan_close l i d = Some j ->
    exists body post, l = body ++ rbracket :: post /\ j = i + length body
                      /\ balanced_from (d - 1) body = true.
Proof.
  induction l as [|c l IH]; intros i d j Hd; simpl; [discriminate|].
  destruct (N.eqb c lbracket) eqn:Hl.
  { intros H. apply IH in H as (body & post & -> & -> & Hb); [|lia].
    exists (c :: body), post. simpl. rewrite Hl.
    repeat split; [lia|]. now replace (d - 1 + 1)%Z with (d + 1 - 1)%Z by lia. }
  destruct (N.eqb_spec c rbracket) as [->|Hr].
  - destruct (Z.eqb_spec (d - 1) 0) as [Hz|Hz].
    + intros [= <-]. exists [], l. simpl. rewrite Hz. repeat split. lia.
    + intros H. apply IH in H as (body & post & -> & -> & Hb); [|lia].
      exists (rbracket :: body), post. simpl. rewrite Hb.
      repeat split; [lia|]. apply andb_true_iff. split; [|reflexivity].
      apply Z.leb_le. lia.
  - intros H. apply IH in H as (body & post & -> & -> & Hb); [|lia].
    exists (c :: body), post. simpl. rewrite Hl.
    destruct (N.eqb_spec c rbracket); [contradiction|].
    repeat split; [lia | assumption].
Qed.

Lemma scan_close_complete body post :
  forall i d, (1 <= d)%Z -> balanced_from (d - 1) body = true ->
    scan_close (body ++ rbracket :: post) i d = Some (i + length body).
Proof.
  induction body as [|c body IH]; intros i d Hd; simpl.
  - intros H. apply Z.eqb_eq in H. rewrite H. simpl. f_equal. lia.
  - destruct (N.eqb c lbracket).
    { intros H. rewrite IH; [f_equal; lia | lia |].
      now replace (d + 1 - 1)%Z with (d - 1 + 1)%Z by lia. }
    destruct (N.eqb c rbracket).
    + intros H. apply andb_true_iff in H as [H1 H2]. apply Z.leb_le in H1.
      destruct (Z.eqb_spec (d - 1) 0); [lia|].
      rewrite IH; [f_equal; lia | lia | assumption].
    + intros H. rewrite IH; [f_equal; lia | lia | assumption].
Qed.

Lemma scan_close_lower_strict l :
  forall i d e j, (1 <= e < d)%Z -> scan_close l i d = Some j ->
    exists j', scan_close l i e = Some j' /\ j' < j.
Proof.
  induction l as [|c l IH]; intros i d e j Hde; simpl; [discriminate|].
  destruct (N.eqb c lbracket); [apply IH; lia|].
  destruct (N.eqb c rbracket); [|apply IH; lia].
  destruct (Z.eqb_spec (d - 1) 0); [lia|].
  destruct (Z.eqb_spec (e - 1) 0); [|apply IH; lia].
  intros H. apply scan_close_bounds in H. exists i. split; [reflexivity | lia].
Qed.

Lemma scan_close_inner_strict l1 l2 :
  forall i d j, (1 <= d)%Z ->
    scan_close (l1 ++ lbracket :: l2) i d = Some j ->
    i + length l1 <= j ->
    exists j', scan_close l2 (S (i + length l1)) 1 = Some j' /\ j' < j.
Proof.
  induction l1 as [|c l1 IH]; intros i d j Hd; simpl.
  - rewrite Nat.add_0_r. intros H _.
    apply (scan_close_lower_strict l2 (S i) (d + 1)%Z 1%Z j); [lia | assumption].
  - replace (S (i + S (length l1))) with (S (S i + length l1)) by lia.
    destruct (N.eqb c lbracket).
    { intros H Hj. apply (IH (S i) (d + 1)%Z j); [lia | assumption | lia]. }
    destruct (N.eqb c rbracket).
    + destruct (Z.eqb_spec (d - 1) 0).
      * intros [= <-] Hj. lia.
      * intros H Hj. apply (IH (S i) (d - 1)%Z j); [lia | assumption | lia].
    + intros H Hj. apply (IH (S i) d j); [lia | assumption | lia].
Qed.

(** X1: the index returned is that of a ']' after [start_index], and the
    text between the two is balanced. *)
Theorem find_matching_bracket_sound (text : str) (i j : nat)
        (H : find_matching_bracket text i = Some j) :
  i < j < length text
  /\ nth_error text j = Some rbracket
  /\ balanced (slice text (i + 1) j) = true.
Proof.
  pose proof (find_matching_bracket_bounds _ _ _ H) as Hb.
  unfold find_matching_bracket, slice_from in H.
  apply scan_close_sound in H as (body & post & Hs & -> & Hbal); [|lia].
  split; [lia|]. split.
  - replace (i + 1 + length body) with ((i + 1) + length body) by lia.
    rewrite <- nth_error_skipn, Hs, nth_error_app2, Nat.sub_diag by lia.
    reflexivity.
  - unfold slice. rewrite Hs.
    replace (i + 1 + length body - (i + 1)) with (length body + 0) by lia.
    rewrite firstn_app_2. simpl. rewrite app_nil_r. exact Hbal.
Qed.

Lemma find_matching_bracket_sound_witness :
  find_matching_bracket (py "a[b[c]d]e") 1 = Some 7
  /\ balanced (slice (py "a[b[c]d]e") (1 + 1) 7) = true.
Proof.
  assert (H : find_matching_bracket (py "a[b[c]d]e") 1 = Some 7) by reflexivity.
  split; [exact H|].
  exact (proj2 (proj2 (find_matching_bracket_sound _ _ _ H))).
Defined.

Lemma find_matching_bracket_group pre body post c :
  balanced body = true ->
  find_matching_bracket (pre ++ c :: body ++ rbracket :: post) (length pre)
  = Some (length pre + 1 + length body).
Proof.
  intros H. unfold find_matching_bracket, slice_from.
  replace (pre ++ c :: body ++ rbracket :: post)
    with ((pre ++ [c]) ++ body ++ rbracket :: post)
    by (rewrite <- app_assoc; reflexivity).
  rewrite skipn_app, skipn_all2 by (rewrite length_app; simpl; lia).
  rewrite length_app. simpl length.
  rewrite Nat.sub_diag. simpl.
  apply scan_close_complete; [lia | exact H].
Qed.

(** X2: conversely a balanced text followed by ']' is closed there,
    whatever stands before it: the character at [start_index] itself is not
    looked at. *)
Theorem find_matching_bracket_complete (pre body post : str) (c : char)
        (H : balanced body = true) :
  find_matching_bracket (pre ++ c :: body ++ rbracket :: post) (length pre)
  = Some (length pre + 1 + length body).
Proof.
  unfold find_matching_bracket, slice_from.
  assert (E : skipn (length pre + 1) (pre ++ c :: body ++ rbracket :: post)
              = body ++ rbracket :: post).
  { rewrite skipn_app, skipn_all2 by lia.
    replace (length pre + 1 - length pre) with 1 by lia. reflexivity. }
  rewrite E. apply scan_close_complete; [lia | exact H].
Qed.

Lemma find_matching_bracket_complete_witness :
  balanced (py "x|[y]") = true
  /\ find_matching_bracket (py "ab" ++ 120%N :: py "x|[y]" ++ rbracket :: py "z") 2
     = Some (2 + 1 + 5).
Proof.
  split; [reflexivity|].
  exact (find_matching_bracket_complete (py "ab") (py "x|[y]") (py "z") 120%N eq_refl).
Defined.

(** X3: groups are nested, never overlapping: a '[' between a '[' and its
    closer has its own closer strictly before that one. *)
Theorem find_matching_bracket_nested (text : str) (i j k : nat)
        (H : find_matching_bracket text i = Some j)
        (Hk : nth_error text k = Some lbracket)
        (Hik : i < k < j) :
  exists j', find_matching_bracket text k = Some j' /\ k < j' < j.
Proof.
  destruct (nth_error_split _ _ Hk) as (A & B & Ht & HA).
  unfold find_matching_bracket, slice_from in *.
  assert (E1 : skipn (i + 1) text = skipn (i + 1) A ++ lbracket :: B).
  { rewrite Ht, skipn_app. replace (i + 1 - length A) with 0 by lia. reflexivity. }
  assert (E2 : skipn (k + 1) text = B).
  { rewrite Ht, skipn_app, skipn_all2 by lia.
    replace (k + 1 - length A) with 1 by lia. reflexivity. }
  rewrite E1 in H. rewrite E2.
  apply scan_close_inner_strict in H; [|lia|rewrite length_skipn; lia].
  rewrite length_skipn in H.
  replace (S (i + 1 + (length A - (i + 1)))) with (k + 1) in H by lia.
  destruct H as (j' & H & Hj). exists j'. split; [assumption|].
  apply scan_close_bounds in H. lia.
Qed.

Lemma find_matching_bracket_nested_witness :
  find_matching_bracket (py "a[b[c]d]e") 1 = Some 7
  /\ nth_error (py "a[b[c]d]e") 3 = Some lbracket
  /\ exists j', find_matching_bracket (py "a[b[c]d]e") 3 = Some j' /\ 3 < j' < 7.
Proof.
  split; [reflexivity|]. split; [reflexivity|].
  apply (find_matching_bracket_nested (py "a[b[c]d]e") 1 7 3);
    [reflexivity | reflexivity | lia].
Defined.

(** X4: from the last index on there is nothing to scan: the result is the
    "not found" value. *)
Theorem find_matching_bracket_at_end (text : str) (i : nat)
        (H : length text <= i + 1) :
  find_matching_bracket text i = None.
Proof.
  unfold find_matching_bracket, slice_from. now rewrite skipn_all2.
Qed.

Lemma find_matching_bracket_at_end_witness :
  length (py "ab[") <= 2 + 1 /\ find_matching_bracket (py "ab[") 2 = None.
Proof.
  assert (H : length (py "ab[") <= 2 + 1) by (simpl; lia).
  split; [exact H | exact (find_matching_bracket_at_end (py "ab[") 2 H)].
Defined.

(** ** [split_options]: what the options are *)

Lemma split_from_nonempty rest : forall current depth,
  split_from current rest depth <> [].
Proof.
  induction rest as [|c rest IH]; intros current depth; simpl; [discriminate|].
  destruct (N.eqb c lbracket); [apply IH|].
  destruct (N.eqb c rbracket); [apply IH|].
  destruct (N.eqb c pipe && Z.eqb depth 0); [discriminate | apply IH].
Qed.

Lemma join_cons sep x l : l <> [] -> join sep (x :: l) = x ++ sep ++ join sep l.
Proof. destruct l; [congruence | reflexivity]. Qed.

Lemma join_split_from rest : forall current depth,
  join [pipe] (split_from current rest depth) = current ++ rest.
Proof.
  induction rest as [|c rest IH]; intros current depth; simpl.
  - now rewrite app_nil_r.
  - assert (E : (current ++ [c]) ++ rest = current ++ c :: rest)
      by (rewrite <- app_assoc; reflexivity).
    destruct (N.eqb c lbracket); [now rewrite IH|].
    destruct (N.eqb c rbracket); [now rewrite IH|].
    destruct (N.eqb_spec c pipe) as [->|Hc]; simpl; [|now rewrite IH].
    destruct (Z.eqb depth 0); [|now rewrite IH].
    rewrite join_cons by apply split_from_nonempty. now rewrite IH.
Qed.

(** X5: joining the options with '|' gives the text back: the options are
    consecutive pieces of the text and only separating '|' are dropped. *)
Theorem split_options_join (option_text : str) :
  join [pipe] (split_options option_text) = option_text.
Proof.
  rewrite split_options_split_from. apply join_split_from.
Qed.

Lemma split_from_group body : forall current depth post,
  (1 <= depth)%Z -> balanced_from (depth - 1) body = true ->
  split_from current (body ++ rbracket :: post) depth
  = split_from (current ++ body ++ [rbracket]) post 0.
Proof.
  induction body as [|c body IH]; intros current depth post Hd; simpl.
  - intros H. apply Z.eqb_eq in H. now replace (depth - 1)%Z with 0%Z.
  - assert (E : forall l, (current ++ [c]) ++ l = current ++ c :: l)
      by (intros l; rewrite <- app_assoc; reflexivity).
    destruct (N.eqb c lbracket).
    { intros H. rewrite IH, E; [reflexivity | lia |].
      now replace (depth + 1 - 1)%Z with (depth - 1 + 1)%Z by lia. }
    destruct (N.eqb c rbracket).
    + intros H. apply andb_true_iff in H as [H1 H2]. apply Z.leb_le in H1.
      rewrite IH, E; [reflexivity | lia | assumption].
    + destruct (Z.eqb_spec depth 0); [lia|]. rewrite andb_false_r.
      intros H. rewrite IH, E; [reflexivity | lia | assumption].
Qed.

Lemma split_from_no_pipe rest : forall current depth,
  ~ In pipe rest -> split_from current rest depth = [current ++ rest].
Proof.
  induction rest as [|c rest IH]; intros current depth Hp; simpl.
  - now rewrite app_nil_r.
  - assert (E : (current ++ [c]) ++ rest = current ++ c :: rest)
      by (rewrite <- app_assoc; reflexivity).
    assert (Hr : ~ In pipe rest) by (intros Hin; apply Hp; now right).
    destruct (N.eqb c lbracket); [now rewrite IH, E|].
    destruct (N.eqb c rbracket); [now rewrite IH, E|].
    destruct (N.eqb_spec c pipe) as [->|Hc]; [exfalso; apply Hp; now left|].
    simpl. now rewrite IH, E.
Qed.

Lemma balanced_from_net_depth s : forall depth,
  balanced_from depth s = true -> (depth + net_depth s = 0)%Z.
Proof.
  induction s as [|c s IH]; intros depth; simpl.
  - intros H. apply Z.eqb_eq in H. lia.
  - destruct (N.eqb c lbracket); [intros H; apply IH in H; lia|].
    destruct (N.eqb c rbracket); [|intros H; apply IH in H; lia].
    intros H. apply andb_true_iff in H as [_ H]. apply IH in H. lia.
Qed.

Lemma net_depth_app a b : net_depth (a ++ b) = (net_depth a + net_depth b)%Z.
Proof. induction a as [|c a IH]; simpl; [reflexivity | rewrite IH; lia]. Qed.

(** X6: a well-formed group is never cut, whatever '|' it holds: alone it
    is the single option, and followed by a '|' it is the first option,
    the splitting going on after that '|' as from the start. *)
Theorem split_options_group (body : str) (Hb : balanced body = true) :
  split_options (lbracket :: body ++ [rbracket])
  = [lbracket :: body ++ [rbracket]]
  /\ forall y, split_options ((lbracket :: body ++ [rbracket]) ++ pipe :: y)
               = (lbracket :: body ++ [rbracket]) :: split_options y.
Proof.
  assert (G : split_options (lbracket :: body ++ [rbracket])
              = [lbracket :: body ++ [rbracket]]).
  { rewrite split_options_split_from. simpl.
    now rewrite split_from_group by (assumption || lia). }
  split; [exact G|]. intros y.
  rewrite split_options_pipe, G; [reflexivity|].
  apply balanced_from_net_depth in Hb.
  change (net_depth (lbracket :: body ++ [rbracket]))
    with (1 + net_depth (body ++ [rbracket]))%Z.
  rewrite net_depth_app. change (net_depth [rbracket]) with (-1)%Z. lia.
Qed.

Lemma split_options_group_witness :
  balanced (py "a|[b|c]") = true
  /\ split_options (lbracket :: py "a|[b|c]" ++ [rbracket])
     = [lbracket :: py "a|[b|c]" ++ [rbracket]].
Proof.
  split; [reflexivity|].
  exact (proj1 (split_options_group (py "a|[b|c]") eq_refl)).
Defined.

(** X7: a text without '|' is a single option, the text itself (so the
    empty text gives one empty option). *)
Theorem split_options_no_pipe (option_text : str) (H : ~ In pipe option_text) :
  split_options option_text = [option_text].
Proof.
  rewrite split_options_split_from. now apply split_from_no_pipe.
Qed.

Lemma split_options_no_pipe_witness :
  ~ In pipe (py "") /\ split_options (py "") = [py ""].
Proof.
  assert (H : ~ In pipe (py "")) by (simpl; tauto).
  split; [exact H | exact (split_options_no_pipe (py "") H)].
Defined.

(** ** The leftmost group *)

Lemma search_from_skip a b : forall s,
  ~ In lbracket a -> search_from (a ++ b) s = search_from b (s + length a).
Proof.
  induction a as [|c a IH]; intros s Ha; simpl.
  - now rewrite Nat.add_0_r.
  - destruct (N.eqb_spec c lbracket) as [->|Hc]; [exfalso; apply Ha; now left|].
    rewrite IH by (intros Hin; apply Ha; now right). f_equal. lia.
Qed.

(** A text [pre[body]post] whose [pre] has no '[' and whose [body] is
    balanced: the first group is found there. *)
Lemma group_found pre body post :
  ~ In lbracket pre -> balanced body = true ->
  let text := pre ++ lbracket :: body ++ rbracket :: post in
  re_search_lbracket text = Some (length pre)
  /\ find_matching_bracket text (length pre) = Some (length pre + 1 + length body)
  /\ slice_to text (length pre) = pre
  /\ slice text (length pre + 1) (length pre + 1 + length body) = body
  /\ slice_from text (length pre + 1 + length body + 1) = post.
Proof.
  intros Hpre Hbody text. unfold text.
  assert (Hskip : skipn (length pre + 1) (pre ++ lbracket :: body ++ rbracket :: post)
                  = body ++ rbracket :: post).
  { rewrite skipn_app, skipn_all2 by lia.
    replace (length pre + 1 - length pre) with 1 by lia. reflexivity. }
  repeat split.
  - unfold re_search_lbracket. rewrite search_from_skip by assumption. reflexivity.
  - now apply find_matching_bracket_group.
  - unfold slice_to. rewrite firstn_app, Nat.sub_diag, firstn_all. simpl.
    now rewrite app_nil_r.
  - unfold slice. rewrite Hskip.
    replace (length pre + 1 + length body - (length pre + 1))
      with (length body + 0) by lia.
    rewrite firstn_app_2. simpl. now rewrite app_nil_r.
  - unfold slice_from.
    replace (length pre + 1 + length body + 1)
      with ((length body + 1) + (length pre + 1)) by lia.
    rewrite <- skipn_skipn, Hskip, skipn_app, skipn_all2 by lia.
    replace (length body + 1 - length body) with 1 by lia. reflexivity.
Qed.

(** Conversely, where the leftmost '[' has its closer, the text has that
    shape. *)
Lemma group_shape text i j :
  re_search_lbracket text = Some i -> find_matching_bracket text i = Some j ->
  exists pre body post,
    text = pre ++ lbracket :: body ++ rbracket :: post
    /\ i = length pre /\ j = length pre + 1 + length body
    /\ ~ In lbracket pre /\ balanced body = true.
Proof.
  intros Hs Hm.
  destruct (re_search_some _ _ Hs) as (pre & rest & Ht & Hi & Hpre).
  unfold find_matching_bracket, slice_from in Hm.
  assert (Hskip : skipn (i + 1) text = rest).
  { rewrite Ht, Hi, skipn_app, skipn_all2 by lia.
    replace (length pre + 1 - length pre) with 1 by lia. reflexivity. }
  rewrite Hskip in Hm.
  apply scan_close_sound in Hm as (body & post & -> & -> & Hbal); [|lia].
  exists pre, body, post. subst i. repeat split; assumption.
Qed.

Lemma gvr_group pre body post :
  ~ In lbracket pre -> balanced body = true ->
  generate_variations_recursive (pre ++ lbracket :: body ++ rbracket :: post)
  = flat_map (fun option =>
      flat_map (fun variant =>
        map (fun suffix_variant => pre ++ variant ++ suffix_variant)
            (generate_variations_recursive post))
        (generate_variations_recursive option))
      (split_options body).
Proof.
  intros Hpre Hbody.
  destruct (group_found pre body post Hpre Hbody) as (Hs & Hm & E1 & E2 & E3).
  rewrite gvr_unfold at 1. unfold gvr_step. rewrite Hs, Hm, E1, E2, E3.
  reflexivity.
Qed.

(** The three ways a text is expanded. *)
Lemma gvr_cases text :
  generate_variations_recursive text = [text]
  \/ exists pre body post,
       text = pre ++ lbracket :: body ++ rbracket :: post
       /\ ~ In lbracket pre /\ balanced body = true
       /\ generate_variations_recursive text
          = flat_map (fun option =>
              flat_map (fun variant =>
                map (fun suffix_variant => pre ++ variant ++ suffix_variant)
                    (generate_variations_recursive post))
                (generate_variations_recursive option))
              (split_options body).
Proof.
  destruct (re_search_lbracket text) as [i|] eqn:Hs.
  2:{ left. rewrite gvr_unfold. unfold gvr_step. now rewrite Hs. }
  destruct (find_matching_bracket text i) as [j|] eqn:Hm.
  2:{ left. rewrite gvr_unfold. unfold gvr_step. now rewrite Hs, Hm. }
  right. destruct (group_shape _ _ _ Hs Hm) as (pre & body & post & -> & _ & _ & Hp & Hb).
  exists pre, body, post. repeat split; try assumption. now apply gvr_group.
Qed.

Lemma list_sum_map_mul {A : Type} (f : A -> nat) (m : nat) l :
  list_sum (map (fun x => f x * m) l) = list_sum (map f l) * m.
Proof. induction l as [|x l IH]; simpl; [reflexivity | rewrite IH; lia]. Qed.

(** X8: for a text [pre[body]post] whose [pre] has no '[' and whose [body]
    is balanced, the variations are, for each option of [body] in order,
    each of its variations between [pre] and each variation of [post]; their
    number is the sum of the options' numbers of variations times the
    number of variations of [post]. *)
Theorem group_expansion_count (pre body post : str)
        (Hpre : ~ In lbracket pre) (Hbody : balanced body = true) :
  generate_variations_recursive (pre ++ lbracket :: body ++ rbracket :: post)
  = flat_map (fun option =>
      flat_map (fun variant =>
        map (fun suffix_variant => pre ++ variant ++ suffix_variant)
            (generate_variations_recursive post))
        (generate_variations_recursive option))
      (split_options body)
  /\ length (expand (pre ++ lbracket :: body ++ rbracket :: post))
     = list_sum (map (fun option => length (generate_variations_recursive option))
                     (split_options body))
       * length (generate_variations_recursive post).
Proof.
  split; [now apply gvr_group|].
  unfold expand, generate_text_variations.
  rewrite length_map, gvr_group, length_flat_map by assumption.
  rewrite <- list_sum_map_mul. f_equal. apply map_ext. intros o.
  rewrite length_flat_map.
  rewrite (map_ext _ (fun _ => length (generate_variations_recursive post)))
    by (intros; apply length_map).
  generalize (generate_variations_recursive o) as vs.
  induction vs as [|v vs IH]; simpl; [reflexivity | rewrite IH; lia].
Qed.

Lemma group_expansion_count_witness :
  length (expand (py "A" ++ lbracket :: py "x|[y|z]" ++ rbracket :: py "[b|c]"))
  = list_sum (map (fun option => length (generate_variations_recursive option))
                  (split_options (py "x|[y|z]")))
    * length (generate_variations_recursive (py "[b|c]")).
Proof.
  refine (proj2 (group_expansion_count (py "A") (py "x|[y|z]") (py "[b|c]") _ eq_refl)).
  simpl. intros [H|H]; [discriminate | exact H].
Defined.

(** ** Variations are made of the template's characters *)

Lemma subseq_refl s : subseq s s.
Proof. induction s; constructor; assumption. Qed.

Lemma subseq_nil_l t : subseq [] t.
Proof. induction t; constructor; assumption. Qed.

Lemma subseq_app a a' b b' :
  subseq a a' -> subseq b b' -> subseq (a ++ b) (a' ++ b').
Proof. intros Ha Hb. induction Ha; simpl; try constructor; assumption. Qed.

Lemma subseq_app_l a v t : subseq v t -> subseq v (a ++ t).
Proof. intros H. apply (subseq_app [] a v t (subseq_nil_l a) H). Qed.

Lemma subseq_app_r a v t : subseq v t -> subseq v (t ++ a).
Proof.
  intros H. rewrite <- (app_nil_r v).
  apply subseq_app; [assumption | apply subseq_nil_l].
Qed.

Lemma subseq_trans a b c : subseq a b -> subseq b c -> subseq a c.
Proof.
  intros Hab Hbc. revert a Hab.
  induction Hbc as [|x b c Hbc IH|x b c Hbc IH]; intros a Hab.
  - assumption.
  - inversion Hab; subst; constructor; auto.
  - constructor. auto.
Qed.

Lemma subseq_length v t : subseq v t -> length v <= length t.
Proof. induction 1; simpl; lia. Qed.

Lemma subseq_In v t c : subseq v t -> In c v -> In c t.
Proof.
  induction 1 as [|x v t H IH|x v t H IH]; simpl; [tauto | | ]; intuition.
Qed.

Lemma subseq_split_from rest : forall current depth o,
  In o (split_from current rest depth) -> subseq o (current ++ rest).
Proof.
  induction rest as [|c rest IH]; intros current depth o; simpl.
  - intros [<-|[]]. rewrite app_nil_r. apply subseq_refl.
  - assert (E : (current ++ [c]) ++ rest = current ++ c :: rest)
      by (rewrite <- app_assoc; reflexivity).
    destruct (N.eqb c lbracket); [intros H; apply IH in H; now rewrite E in H|].
    destruct (N.eqb c rbracket); [intros H; apply IH in H; now rewrite E in H|].
    destruct (N.eqb c pipe && Z.eqb depth 0);
      [|intros H; apply IH in H; now rewrite E in H].
    intros [<-|H].
    + apply subseq_app_r, subseq_refl.
    + apply IH in H. simpl in H. apply subseq_app_l. now constructor.
Qed.

Lemma subseq_sub_spaces_from s : forall in_run, subseq (sub_spaces_from in_run s) s.
Proof.
  induction s as [|c s IH]; intros in_run; simpl; [constructor|].
  destruct (N.eqb_spec c space) as [->|Hc].
  - destruct in_run; constructor; apply IH.
  - constructor. apply IH.
Qed.

Lemma subseq_strip s : subseq (strip s) s.
Proof.
  unfold strip.
  destruct (lstrip_decompose s) as (a & Hs & _).
  destruct (rstrip_decompose (lstrip s)) as (b & Hl & _).
  rewrite Hs at 2. apply subseq_app_l.
  rewrite Hl at 2. apply subseq_app_r, subseq_refl.
Qed.

Lemma subseq_normalize s : subseq (normalize s) s.
Proof.
  unfold normalize, sub_spaces.
  eapply subseq_trans; [apply subseq_strip | apply subseq_sub_spaces_from].
Qed.

Lemma gvr_subseq text :
  forall v, In v (generate_variations_recursive text) -> subseq v text.
Proof.
  induction text as [text IH] using (induction_ltof1 _ (@length char)).
  unfold ltof in IH. intros v.
  destruct (gvr_cases text) as [->|(pre & body & post & Ht & _ & _ & ->)].
  - intros [<-|[]]. apply subseq_refl.
  - intros H. apply in_flat_map in H as (o & Ho & H).
    apply in_flat_map in H as (x & Hx & H).
    apply in_map_iff in H as (y & <- & Hy).
    rewrite split_options_split_from in Ho. apply subseq_split_from in Ho.
    simpl in Ho. pose proof (subseq_length _ _ Ho) as Hlen.
    assert (L : length text = length pre + 1 + length body + 1 + length post).
    { rewrite Ht, length_app. simpl. rewrite length_app. simpl. lia. }
    apply IH in Hx; [|lia]. apply IH in Hy; [|lia].
    rewrite Ht. apply subseq_app; [apply subseq_refl|].
    constructor. apply subseq_app; [eapply subseq_trans; eassumption|].
    now constructor.
Qed.

(** X9: every returned variation is the template with some characters left
    out: no longer than it, and made of its characters only, in their
    order. *)
Theorem variation_is_subsequence (text v : str) (H : In v (expand text)) :
  subseq v text
  /\ length v <= length text
  /\ forall c, In c v -> In c text.
Proof.
  assert (S : subseq v text).
  { unfold expand, generate_text_variations in H.
    apply in_map_iff in H as (x & <- & Hx).
    eapply subseq_trans; [apply subseq_normalize | now apply gvr_subseq]. }
  split; [exact S|]. split; [now apply subseq_length|].
  intros c. now apply subseq_In.
Qed.

Lemma variation_is_subsequence_witness :
  In (py "A y B") (expand (py "A  [x| y ] B"))
  /\ subseq (py "A y B") (py "A  [x| y ] B").
Proof.
  assert (H : In (py "A y B") (expand (py "A  [x| y ] B"))).
  { vm_compute. right. left. reflexivity. }
  split; [exact H | exact (proj1 (variation_is_subsequence _ _ H))].
Defined.

(** ** Balanced templates *)

Lemma balanced_from_app body : forall d e x,
  (0 <= d)%Z -> balanced_from e body = true ->
  balanced_from (d + e) (body ++ x) = balanced_from d x.
Proof.
  induction body as [|c body IH]; intros d e x Hd; simpl.
  - intros H. apply Z.eqb_eq in H. subst e. now rewrite Z.add_0_r.
  - destruct (N.eqb c lbracket).
    { intros H. rewrite <- (IH d (e + 1)%Z x Hd H). f_equal. lia. }
    destruct (N.eqb c rbracket).
    + intros H. apply andb_true_iff in H as [H1 H2]. apply Z.leb_le in H1.
      rewrite <- (IH d (e - 1)%Z x Hd H2).
      replace (d + e - 1)%Z with (d + (e - 1))%Z by lia.
      destruct (Z.leb_spec 1 (d + e)); [reflexivity | lia].
    + intros H. now apply IH.
Qed.

Lemma balanced_prefix pre x :
  ~ In lbracket pre -> balanced_from 0 (pre ++ x) = true ->
  ~ In rbracket pre /\ balanced_from 0 x = true.
Proof.
  induction pre as [|c pre IH]; simpl; intros Hp H; [tauto|].
  destruct (N.eqb_spec c lbracket) as [->|Hl]; [exfalso; apply Hp; now left|].
  destruct (N.eqb_spec c rbracket) as [->|Hr]; [discriminate|].
  destruct IH as [IH1 IH2]; [tauto | assumption|].
  split; [|assumption]. intros [E|E]; [congruence | tauto].
Qed.

Lemma balanced_from_split rest : forall d,
  (1 <= d)%Z -> balanced_from d rest = true ->
  exists body post, rest = body ++ rbracket :: post
                    /\ balanced_from (d - 1) body = true
                    /\ balanced_from 0 post = true.
Proof.
  induction rest as [|c rest IH]; intros d Hd; simpl.
  - intros H. apply Z.eqb_eq in H. lia.
  - destruct (N.eqb c lbracket) eqn:Hl.
    { intros H. apply IH in H as (body & post & -> & Hb & Hq); [|lia].
      exists (c :: body), post. simpl. rewrite Hl.
      repeat split; [|assumption].
      now replace (d - 1 + 1)%Z with (d + 1 - 1)%Z by lia. }
    destruct (N.eqb_spec c rbracket) as [->|Hr].
    + intros H. apply andb_true_iff in H as [_ H].
      destruct (Z.eq_dec d 1) as [->|Hd1].
      * exists [], rest. now repeat split.
      * apply IH in H as (body & post & -> & Hb & Hq); [|lia].
        exists (rbracket :: body), post. simpl. rewrite Hb.
        repeat split; [|assumption].
        apply andb_true_iff. split; [apply Z.leb_le; lia | reflexivity].
    + intros H. apply IH in H as (body & post & -> & Hb & Hq); [|lia].
      exists (c :: body), post. simpl. rewrite Hl.
      destruct (N.eqb_spec c rbracket); [contradiction|]. now repeat split.
Qed.

(** A balanced text has no bracket at all, or starts with a piece free of
    brackets followed by a balanced group and a balanced rest. *)
Lemma balanced_shape text :
  balanced text = true ->
  (~ In lbracket text /\ ~ In rbracket text)
  \/ exists pre body post,
       text = pre ++ lbracket :: body ++ rbracket :: post
       /\ ~ In lbracket pre /\ ~ In rbracket pre
       /\ balanced body = true /\ balanced post = true.
Proof.
  unfold balanced. intros H.
  destruct (re_search_lbracket text) as [i|] eqn:Hs.
  - right. destruct (re_search_some _ _ Hs) as (pre & rest & -> & _ & Hpre).
    destruct (balanced_prefix _ _ Hpre H) as [Hr Hb]. simpl in Hb.
    apply balanced_from_split in Hb as (body & post & -> & Hb & Hq); [|lia].
    exists pre, body, post. now repeat split.
  - left. apply (search_from_none text 0) in Hs. split; [assumption|].
    rewrite <- (app_nil_r text) in H. now apply balanced_prefix in H.
Qed.

Lemma split_from_balanced rest : forall current depth,
  (forall z, balanced_from depth z = true -> balanced (current ++ z) = true) ->
  balanced_from depth rest = true ->
  Forall (fun o => balanced o = true) (split_from current rest depth).
Proof.
  induction rest as [|c rest IH]; intros current depth Hcur; simpl.
  - intros H. constructor; [|constructor].
    rewrite <- (app_nil_r current). now apply Hcur.
  - assert (E : forall z, (current ++ [c]) ++ z = current ++ c :: z)
      by (intros z; rewrite <- app_assoc; reflexivity).
    destruct (N.eqb c lbracket) eqn:Hl.
    { intros H. apply IH; [|assumption]. intros z Hz. rewrite E.
      apply Hcur. simpl. now rewrite Hl. }
    destruct (N.eqb c rbracket) eqn:Hr.
    { intros H. apply andb_true_iff in H as [H1 H2].
      apply IH; [|assumption]. intros z Hz. rewrite E.
      apply Hcur. simpl. now rewrite Hl, Hr, H1, Hz. }
    destruct (N.eqb c pipe && Z.eqb depth 0) eqn:Hp.
    + intros H. apply andb_true_iff in Hp as [_ Hd]. apply Z.eqb_eq in Hd.
      subst depth. constructor.
      * rewrite <- (app_nil_r current). now apply Hcur.
      * apply IH; [|assumption]. intros z Hz. exact Hz.
    + intros H. apply IH; [|assumption]. intros z Hz. rewrite E.
      apply Hcur. simpl. now rewrite Hl, Hr.
Qed.

Lemma split_options_balanced body o :
  balanced body = true -> In o (split_options body) -> balanced o = true.
Proof.
  intros Hb Ho. rewrite split_options_split_from in Ho.
  pose proof (split_from_balanced body [] 0%Z (fun z Hz => Hz) Hb) as F.
  rewrite Forall_forall in F. now apply F.
Qed.

Lemma gvr_balanced_no_brackets text :
  balanced text = true ->
  forall v, In v (generate_variations_recursive text) ->
    ~ In lbracket v /\ ~ In rbracket v.
Proof.
  induction text as [text IH] using (induction_ltof1 _ (@length char)).
  unfold ltof in IH. intros Hb v.
  destruct (balanced_shape text Hb)
    as [[Hl Hr]|(pre & body & post & Ht & Hl & Hr & Hbody & Hpost)].
  - rewrite gvr_no_bracket by assumption. intros [<-|[]]. now split.
  - rewrite Ht, gvr_group by assumption.
    intros H. apply in_flat_map in H as (o & Ho & H).
    apply in_flat_map in H as (x & Hx & H).
    apply in_map_iff in H as (y & <- & Hy).
    assert (L : length text = length pre + 1 + length body + 1 + length post).
    { rewrite Ht, length_app. simpl. rewrite length_app. simpl. lia. }
    pose proof (split_options_lengths _ _ Ho) as Hlen.
    apply IH in Hx; [|lia|now apply (split_options_balanced body)].
    apply IH in Hy; [|lia|assumption].
    split; intros Hin; apply in_app_or in Hin as [Hin|Hin]; try tauto;
      apply in_app_or in Hin as [Hin|Hin]; tauto.
Qed.

(** X10: for a balanced template (no ']' without its '[', no '[' left
    open) no returned variation holds a bracket: every group has been
    replaced by one of its alternatives. *)
Theorem balanced_no_brackets (text v : str)
        (Hb : balanced text = true) (H : In v (expand text)) :
  ~ In lbracket v /\ ~ In rbracket v.
Proof.
  unfold expand, generate_text_variations in H.
  apply in_map_iff in H as (x & <- & Hx).
  destruct (gvr_balanced_no_brackets text Hb x Hx) as [Hl Hr].
  pose proof (subseq_normalize x) as S.
  split; intros Hin; apply (subseq_In _ _ _ S) in Hin; tauto.
Qed.

Lemma balanced_no_brackets_witness :
  balanced (py "Good [[morning|evening], [John|Jane]| day]!") = true
  /\ In (py "Good evening, Jane!")
        (expand (py "Good [[morning|evening], [John|Jane]| day]!"))
  /\ ~ In lbracket (py "Good evening, Jane!").
Proof.
  assert (H : In (py "Good evening, Jane!")
                 (expand (py "Good [[morning|evening], [John|Jane]| day]!"))).
  { vm_compute. do 3 right. left. reflexivity. }
  split; [reflexivity|]. split; [exact H|].
  exact (proj1 (balanced_no_brackets
                  (py "Good [[morning|evening], [John|Jane]| day]!") _ eq_refl H)).
Defined.

(** ** Concatenated templates *)

Lemma scan_close_app_some l b :
  forall i d j, scan_close l i d = Some j -> scan_close (l ++ b) i d = Some j.
Proof.
  induction l as [|c l IH]; intros i d j; simpl; [discriminate|].
  destruct (N.eqb c lbracket); [apply IH|].
  destruct (N.eqb c rbracket); [|apply IH].
  destruct (Z.eqb (d - 1) 0); [trivial | apply IH].
Qed.

Lemma flat_map_flat_map {A B C : Type} (f : A -> list B) (g : B -> list C) l :
  flat_map g (flat_map f l) = flat_map (fun x => flat_map g (f x)) l.
Proof.
  induction l as [|x l IH]; simpl; [reflexivity|]. now rewrite flat_map_app, IH.
Qed.

Lemma flat_map_map {A B C : Type} (h : A -> B) (g : B -> list C) l :
  flat_map g (map h l) = flat_map (fun x => g (h x)) l.
Proof. induction l as [|x l IH]; simpl; [reflexivity | now rewrite IH]. Qed.

Lemma all_matched_skipn text n : all_matched text -> all_matched (skipn n text).
Proof. intros H k Hk. apply unmatched_skipn in Hk. exact (H _ Hk). Qed.

Lemma search_from_shift l n :
  forall i, search_from l (n + i) = option_map (Nat.add n) (search_from l i).
Proof.
  induction l as [|c l IH]; intros i; simpl; [reflexivity|].
  destruct (N.eqb c lbracket); [reflexivity|]. rewrite plus_n_Sm. apply IH.
Qed.

(** Text before the first '[' is put in front of every variation. *)
Lemma gvr_literal_prefix a b :
  ~ In lbracket a ->
  generate_variations_recursive (a ++ b)
  = map (fun y => a ++ y) (generate_variations_recursive b).
Proof.
  intros Ha.
  destruct (re_search_lbracket b) as [i|] eqn:Hs.
  2:{ apply (search_from_none b 0) in Hs. rewrite !gvr_no_bracket; [reflexivity|assumption|].
      intros Hin. apply in_app_or in Hin. tauto. }
  destruct (find_matching_bracket b i) as [j|] eqn:Hm.
  - destruct (group_shape _ _ _ Hs Hm) as (pre & body & post & -> & _ & _ & Hp & Hb).
    rewrite app_assoc, !gvr_group; try assumption.
    2:{ intros Hin. apply in_app_or in Hin. tauto. }
    rewrite map_flat_map_comm. apply flat_map_ext_in. intros o _.
    rewrite map_flat_map_comm. apply flat_map_ext_in. intros v _.
    rewrite map_map. apply map_ext. intros s. now rewrite <- app_assoc.
  - rewrite (gvr_unfold b), (gvr_unfold (a ++ b)). unfold gvr_step.
    rewrite Hs, Hm. unfold re_search_lbracket in *.
    rewrite search_from_skip by assumption.
    replace (0 + length a) with (length a + 0) by lia.
    rewrite (search_from_shift b (length a) 0), Hs. simpl.
    rewrite find_matching_bracket_skipn, skipn_app, skipn_all, Nat.sub_diag.
    simpl. rewrite Hm. reflexivity.
Qed.

Lemma product_length xs ys : length (product xs ys) = length xs * length ys.
Proof.
  unfold product, str in *. induction xs as [|x xs IH]; [reflexivity|].
  cbn [flat_map]. rewrite length_app, length_map, IH. simpl. lia.
Qed.

Lemma gvr_app a : forall b,
  all_matched a ->
  generate_variations_recursive (a ++ b)
  = product (generate_variations_recursive a) (generate_variations_recursive b).
Proof.
  induction a as [a IH] using (induction_ltof1 _ (@length char)).
  unfold ltof in IH. intros b Ha.
  destruct (re_search_lbracket a) as [i|] eqn:Hs.
  2:{ apply (search_from_none a 0) in Hs.
      rewrite gvr_literal_prefix, (gvr_no_bracket a) by assumption.
      unfold product. simpl. now rewrite app_nil_r. }
  destruct (find_matching_bracket a i) as [j|] eqn:Hm.
  2:{ exfalso. apply (Ha i). split; [|assumption].
      destruct (re_search_some _ _ Hs) as (pre & post & -> & -> & _).
      now rewrite nth_error_app2, Nat.sub_diag by lia. }
  destruct (group_shape _ _ _ Hs Hm) as (pre & body & post & Et & _ & _ & Hp & Hb).
  assert (Hpost : all_matched post).
  { destruct (group_found pre body post Hp Hb) as (_ & _ & _ & _ & E).
    rewrite <- E, <- Et. now apply all_matched_skipn. }
  assert (L : length post < length a).
  { rewrite Et, length_app. simpl. rewrite length_app. simpl. lia. }
  rewrite Et.
  replace ((pre ++ lbracket :: body ++ rbracket :: post) ++ b)
    with (pre ++ lbracket :: body ++ rbracket :: (post ++ b))
    by (rewrite <- !app_assoc; simpl; rewrite <- app_assoc; reflexivity).
  rewrite !gvr_group, (IH post L b Hpost) by assumption.
  unfold product. rewrite flat_map_flat_map.
  apply flat_map_ext_in. intros o _.
  rewrite flat_map_flat_map. apply flat_map_ext_in. intros v _.
  rewrite map_flat_map_comm, flat_map_map.
  apply flat_map_ext_in. intros s _.
  rewrite map_map. apply map_ext. intros y. now rewrite <- !app_assoc.
Qed.

(** X11: when every '[' of [a] has its closer in [a], the expansion of
    [a + b] before normalization is made of the concatenations of a
    variation of [a] and a variation of [b], in that order of enumeration;
    so the numbers of returned variations multiply. *)
Theorem expansion_of_concatenation (a b : str) (Ha : all_matched a) :
  generate_variations_recursive (a ++ b)
  = product (generate_variations_recursive a) (generate_variations_recursive b)
  /\ length (expand (a ++ b)) = length (expand a) * length (expand b).
Proof.
  split; [now apply gvr_app|].
  unfold expand, generate_text_variations.
  now rewrite !length_map, gvr_app, product_length.
Qed.

Lemma expansion_of_concatenation_witness :
  all_matched (py "x[a|b]")
  /\ generate_variations_recursive (py "x[a|b]" ++ py "[c|d")
     = product (generate_variations_recursive (py "x[a|b]"))
               (generate_variations_recursive (py "[c|d")).
Proof.
  assert (H : all_matched (py "x[a|b]")).
  { intros k [H1 H2].
    do 6 (destruct k as [|k]; [vm_compute in H1, H2; discriminate|]).
    simpl in H1. destruct k; discriminate. }
  split; [exact H | exact (proj1 (expansion_of_concatenation _ (py "[c|d") H))].
Defined.

(** X12: the normalization leaves a string unchanged exactly when the
    string has no two consecutive spaces and no whitespace at either
    end. *)
Theorem normalize_fixpoints (s : str) : normalize s = s <-> normalized s.
Proof.
  split; [|apply normalized_fixpoint].
  intros H. rewrite <- H. apply normalize_normalized.
Qed.

Lemma normalize_fixpoints_witness :
  normalize (py "a b") = py "a b" /\ normalized (py "a b").
Proof.
  split; [reflexivity|].
  apply (proj1 (normalize_fixpoints (py "a b"))). reflexivity.
Defined.

(** * [src/process_files.py] *)

Lemma variations_of_app a b : variations_of (a ++ b) = variations_of a ++ variations_of b.
Proof. apply flat_map_app. Qed.

Lemma variations_of_map l : variations_of (map Variation l) = l.
Proof.
  unfold variations_of. induction l as [|x l IH]; simpl; [reflexivity|].
  now f_equal.
Qed.

Lemma variations_of_write_batch separator b :
  variations_of (write_batch separator b) = b.
Proof.
  unfold write_batch. rewrite variations_of_app, variations_of_map.
  destruct (truthy separator); simpl; apply app_nil_r.
Qed.

Lemma batch_loop_variations separator batch_size completed :
  forall written results_batch,
    variations_of (fst (batch_loop separator batch_size completed written results_batch))
    ++ snd (batch_loop separator batch_size completed written results_batch)
    = variations_of written ++ results_batch ++ concat completed.
Proof.
  induction completed as [|r completed IH]; intros written acc; simpl.
  - now rewrite app_nil_r.
  - destruct (Z.leb batch_size (Z.of_nat (length (acc ++ r)))).
    + rewrite IH, variations_of_app, variations_of_write_batch. simpl.
      now rewrite <- !app_assoc.
    + rewrite IH. now rewrite <- !app_assoc.
Qed.

Lemma write_results_variations separator batch_size completed :
  variations_of (write_results separator batch_size completed) = concat completed.
Proof.
  unfold write_results.
  pose proof (batch_loop_variations separator batch_size completed [] []) as H.
  destruct (batch_loop separator batch_size completed [] []) as [w rb].
  simpl in H. rewrite !variations_of_app, variations_of_map.
  destruct (truthy separator && truthy rb); simpl; now rewrite app_nil_r.
Qed.

(** X13: whatever the separator and the batch size, the variations written
    are those of the completed results, all of them, once each, in the
    order of completion; with nothing to process nothing is written. *)
Theorem written_variations_complete (separator : str) (batch_size : Z)
        (completed : list (list str)) :
  variations_of (write_results separator batch_size completed) = concat completed
  /\ write_results separator batch_size [] = [].
Proof.
  split; [apply write_results_variations|].
  unfold write_results; simpl; now rewrite andb_false_r.
Qed.

Lemma batch_loop_no_separator batch_size completed :
  forall written results_batch,
    fst (batch_loop [] batch_size completed written results_batch)
    ++ map Variation (snd (batch_loop [] batch_size completed written results_batch))
    = written ++ map Variation (results_batch ++ concat completed).
Proof.
  induction completed as [|r completed IH]; intros written acc; simpl.
  - now rewrite app_nil_r.
  - destruct (Z.leb batch_size (Z.of_nat (length (acc ++ r)))).
    + rewrite IH. unfold write_batch. simpl.
      now rewrite app_nil_r, !map_app, <- !app_assoc.
    + rewrite IH. now rewrite <- !app_assoc.
Qed.

(** X14: without a separator the batch size does not show: the file gets
    (after its previous content when appending, alone otherwise) every
    variation followed by a newline, in the order of completion. *)
Theorem no_separator_plain_lines (append : bool) (batch_size : Z)
        (completed : list str) (previous : str) :
  process_text_variations append [] batch_size completed previous
  = (if append then previous else [])
    ++ concat (map (fun variation => variation ++ [newline])
                   (concat (map generate_text_variations completed))).
Proof.
  unfold process_text_variations, write_results. f_equal. f_equal.
  pose proof (batch_loop_no_separator batch_size
                (map generate_text_variations completed) [] []) as H.
  destruct (batch_loop [] batch_size (map generate_text_variations completed) [] [])
    as [w rb].
  simpl in *. rewrite app_nil_r, H, map_map. reflexivity.
Qed.

Lemma concat_snoc {A : Type} (l : list (list A)) x : concat (l ++ [x]) = concat l ++ x.
Proof. rewrite concat_app. simpl. now rewrite app_nil_r. Qed.

Lemma batch_loop_chunks separator batch_size completed :
  forall written chunk,
    batch_loop separator batch_size completed written (concat chunk)
    = (written ++ flat_map (fun ch => write_batch separator (concat ch))
                           (fst (chunk_loop batch_size completed chunk)),
       concat (snd (chunk_loop batch_size completed chunk))).
Proof.
  induction completed as [|r completed IH]; intros written chunk; simpl.
  - now rewrite app_nil_r.
  - rewrite concat_snoc.
    destruct (Z.leb batch_size (Z.of_nat (length (concat chunk ++ r)))).
    + change (@nil str) with (concat (@nil (list str))). rewrite IH.
      destruct (chunk_loop batch_size completed []) as [chunks rest]. simpl.
      now rewrite concat_snoc, <- app_assoc.
    + rewrite <- concat_snoc. apply IH.
Qed.

Lemma chunk_loop_spec batch_size completed :
  forall chunk,
    (chunk = [] \/ (Z.of_nat (length (concat chunk)) < batch_size)%Z) ->
    let (chunks, rest) := chunk_loop batch_size completed chunk in
    concat chunks ++ rest = chunk ++ completed
    /\ Forall (fun ch => ch <> []
                 /\ (batch_size <= Z.of_nat (length (concat ch)))%Z
                 /\ (removelast ch = []
                     \/ (Z.of_nat (length (concat (removelast ch))) < batch_size)%Z))
              chunks
    /\ (rest = [] \/ (Z.of_nat (length (concat rest)) < batch_size)%Z).
Proof.
  induction completed as [|r completed IH]; intros chunk Hchunk; simpl.
  - rewrite app_nil_r. repeat split; [constructor | assumption].
  - destruct (Z.leb_spec batch_size (Z.of_nat (length (concat (chunk ++ [r]))))).
    + specialize (IH [] (or_introl eq_refl)).
      destruct (chunk_loop batch_size completed []) as [chunks rest].
      destruct IH as (E & F & R). simpl in E |- *.
      rewrite <- !app_assoc, E. simpl.
      repeat split; [|assumption]. constructor; [|assumption].
      rewrite removelast_last. repeat split; [|assumption|assumption].
      destruct chunk; discriminate.
    + specialize (IH (chunk ++ [r]) (or_intror H)).
      destruct (chunk_loop batch_size completed (chunk ++ [r])) as [chunks rest].
      now rewrite <- app_assoc in IH.
Qed.

Lemma concat_nonempty {A : Type} (l : list (list A)) :
  l <> [] -> Forall (fun x => x <> []) l -> concat l <> [].
Proof.
  destruct l as [|x l]; [congruence|]. intros _ F. inversion F; subst.
  simpl. destruct x; [congruence | discriminate].
Qed.

Lemma in_removelast {A : Type} (l : list A) x : In x (removelast l) -> In x l.
Proof.
  induction l as [|y l IH]; simpl; [tauto|].
  destruct l; [tauto|]. intros [H|H]; [now left | right; now apply IH].
Qed.

(** X15: with a separator, and results none of which is empty (as those of
    [generate_text_variations] are), the writes are a sequence of batches,
    each made of the variations of one or more whole results, in the order
    of completion, followed by the separator.  No batch is empty; every
    batch but the last reaches [batch_size]; and none would reach it
    without its last result. *)
Theorem batches_with_separator (separator : str) (batch_size : Z)
        (completed : list (list str))
        (Hsep : separator <> [])
        (Hres : Forall (fun result => result <> []) completed) :
  exists chunks : list (list (list str)),
    concat chunks = completed
    /\ write_results separator batch_size completed
       = flat_map (fun ch => map Variation (concat ch) ++ [Separator]) chunks
    /\ Forall (fun ch => concat ch <> []) chunks
    /\ Forall (fun ch => (batch_size <= Z.of_nat (length (concat ch)))%Z)
              (removelast chunks)
    /\ Forall (fun ch => removelast ch = []
                 \/ (Z.of_nat (length (concat (removelast ch))) < batch_size)%Z)
              chunks.
Proof.
  assert (Ht : truthy separator = true) by (destruct separator; [congruence | reflexivity]).
  unfold write_results.
  change (@nil str) with (concat (@nil (list str))) at 1.
  rewrite batch_loop_chunks.
  pose proof (chunk_loop_spec batch_size completed [] (or_introl eq_refl)) as S.
  destruct (chunk_loop batch_size completed []) as [chunks rest].
  destruct S as (E & F & R). simpl in E |- *.
  assert (Hall : Forall (fun result : list str => result <> []) (concat chunks ++ rest))
    by now rewrite E.
  apply Forall_app in Hall as [Hchunks Hrest].
  assert (Hne : forall ch, ch <> [] -> Forall (fun result : list str => result <> []) ch ->
                           concat ch <> []) by (intros; now apply concat_nonempty).
  assert (Hin : Forall (fun ch : list (list str) => concat ch <> []) chunks).
  { apply Forall_forall. intros ch Hch. rewrite Forall_forall in F.
    apply Hne; [apply (F ch Hch)|].
    apply Forall_forall. intros x Hx. rewrite Forall_forall in Hchunks.
    apply Hchunks. apply in_concat. eauto. }
  assert (W : flat_map (fun ch => write_batch separator (concat ch)) chunks
              = flat_map (fun ch => map Variation (concat ch) ++ [Separator]) chunks).
  { apply flat_map_ext_in. intros ch _. unfold write_batch. now rewrite Ht. }
  rewrite W, Ht. cbn [andb].
  destruct rest as [|r rest].
  - exists chunks. rewrite app_nil_r in E. cbn [concat map truthy].
    rewrite !app_nil_r.
    repeat split; try assumption.
    + apply Forall_forall. intros ch Hch. rewrite Forall_forall in F.
      apply (F ch). now apply in_removelast.
    + eapply Forall_impl; [|exact F]. simpl. tauto.
  - exists (chunks ++ [r :: rest]).
    assert (Hlast : concat (r :: rest) <> []).
    { apply Hne; [discriminate | assumption]. }
    assert (Htr : truthy (concat (r :: rest)) = true).
    { destruct (concat (r :: rest)); [congruence | reflexivity]. }
    rewrite Htr, concat_snoc, flat_map_app. cbn [flat_map].
    rewrite app_nil_r.
    repeat split.
    + assumption.
    + apply Forall_app. split; [assumption|]. now constructor.
    + rewrite removelast_last. eapply Forall_impl; [|exact F]. simpl. tauto.
    + apply Forall_app. split; [eapply Forall_impl; [|exact F]; simpl; tauto|].
      constructor; [|constructor].
      destruct R as [R|R]; [discriminate|].
      destruct (removelast (r :: rest)) as [|x l] eqn:Er; [now left|right].
      assert (L : length (concat (x :: l)) <= length (concat (r :: rest))).
      { rewrite <- Er.
        rewrite (app_removelast_last (l := r :: rest) []) at 2 by discriminate.
        rewrite concat_snoc, length_app. lia. }
      lia.
Qed.

Lemma batches_with_separator_witness :
  exists chunks : list (list (list str)),
    concat chunks = [[py "a"]; [py "b"; py "c"]; [py "d"]]
    /\ write_results (py "---") 2 [[py "a"]; [py "b"; py "c"]; [py "d"]]
       = flat_map (fun ch => map Variation (concat ch) ++ [Separator]) chunks.
Proof.
  destruct (batches_with_separator (py "---") 2
              [[py "a"]; [py "b"; py "c"]; [py "d"]]) as (chunks & E & W & _).
  - discriminate.
  - repeat constructor; discriminate.
  - exists chunks. split; assumption.
Defined.

(** X16: the order in which the futures complete only permutes the
    variations written: whatever that order, they are those of all the
    input lines, as many as the lines have variations together. *)
Theorem completion_order_permutes (separator : str) (batch_size : Z)
        (texts completed : list str) (H : Permutation completed texts) :
  Permutation
    (variations_of (write_results separator batch_size
                                  (map generate_text_variations completed)))
    (concat (map generate_text_variations texts))
  /\ length (variations_of (write_results separator batch_size
                                          (map generate_text_variations completed)))
     = list_sum (map (fun text => length (generate_text_variations text)) texts).
Proof.
  rewrite write_results_variations, <- !flat_map_concat_map.
  assert (P : Permutation (flat_map generate_text_variations completed)
                          (flat_map generate_text_variations texts))
    by now apply Permutation_flat_map.
  split; [exact P|].
  rewrite (Permutation_length P). apply length_flat_map.
Qed.

Lemma completion_order_permutes_witness :
  Permutation [py "[c|d]"; py "[a|b]"] [py "[a|b]"; py "[c|d]"]
  /\ length (variations_of (write_results (py "-") 3
               (map generate_text_variations [py "[c|d]"; py "[a|b]"])))
     = list_sum (map (fun text => length (generate_text_variations text))
                     [py "[a|b]"; py "[c|d]"]).
Proof.
  assert (P : Permutation [py "[c|d]"; py "[a|b]"] [py "[a|b]"; py "[c|d]"])
    by apply perm_swap.
  split; [exact P|].
  exact (proj2 (completion_order_permutes (py "-") 3 _ _ P)).
Defined.

(** * [src/vargen.py] *)

Lemma split_once_has_equals arg :
  has_equals arg = true -> exists key value, split_once arg = Some (key, value).
Proof.
  unfold has_equals. induction arg as [|c arg IH]; [discriminate|].
  cbn [existsb split_once]. rewrite (N.eqb_sym equals_sign c).
  destruct (N.eqb c equals_sign); cbn [orb]; [eauto|].
  intros H. destruct (IH H) as (k & v & ->). eauto.
Qed.

Lemma key_value_loop_total lower args :
  Forall (fun arg => has_equals arg = true) args ->
  forall st, exists st', key_value_loop lower args st = Some st'.
Proof.
  induction 1 as [|arg args Harg _ IH]; intros st; simpl; [eauto|].
  destruct (split_once_has_equals arg Harg) as (k & v & ->). apply IH.
Qed.

Lemma filter_has_equals argv :
  Forall (fun arg => has_equals arg = true) (filter has_equals argv).
Proof. apply Forall_forall. intros x Hx. now apply filter_In in Hx. Qed.

Lemma key_value_loop_app lower a b st :
  key_value_loop lower (a ++ b) st
  = match key_value_loop lower a st with
    | Some st' => key_value_loop lower b st'
    | None => None
    end.
Proof.
  revert st. induction a as [|x a IH]; intros st; simpl; [reflexivity|].
  destruct (split_once x) as [[k v]|]; [apply IH | reflexivity].
Qed.

(** X17: the parsing accepts every argument list: the unpacking of
    [arg.split('=', 1)] is only done on arguments that hold a '='. *)
Theorem parse_args_total (lower : str -> str) (argv : list str) :
  exists st, parse_args lower argv = Some st.
Proof.
  unfold parse_args.
  destruct (key_value_loop_total lower _ (filter_has_equals argv) cli_none)
    as [st ->].
  eauto.
Qed.

Lemma split_once_some_has_equals arg key value :
  split_once arg = Some (key, value) -> has_equals arg = true.
Proof.
  unfold has_equals. revert key value.
  induction arg as [|c arg IH]; intros key value; [discriminate|].
  cbn [existsb split_once]. rewrite (N.eqb_sym equals_sign c).
  destruct (N.eqb c equals_sign); cbn [orb]; [reflexivity|].
  destruct (split_once arg) as [[k v]|]; [|discriminate].
  intros _. now apply (IH k v).
Qed.

Lemma assign_unknown lower st key value :
  known_key key = false -> assign lower st key value = st.
Proof.
  unfold known_key, assign. intros H.
  repeat (apply orb_false_iff in H as [H ?]).
  now repeat match goal with E : _ = false |- _ => rewrite E; clear E end.
Qed.

(** X18: an argument [key=value] whose key is none of the five known ones
    changes nothing: it is not an error, it sets nothing, and it does not
    count as a positional argument either. *)
Theorem unknown_key_ignored (lower : str -> str) (a b : list str)
        (arg key value : str)
        (Hsplit : split_once arg = Some (key, value))
        (Hkey : known_key key = false) :
  parse_args lower (a ++ arg :: b) = parse_args lower (a ++ b).
Proof.
  pose proof (split_once_some_has_equals _ _ _ Hsplit) as He.
  unfold parse_args. rewrite !filter_app. simpl. rewrite He. simpl.
  rewrite !key_value_loop_app.
  destruct (key_value_loop lower (filter has_equals a) cli_none); [|reflexivity].
  simpl. rewrite Hsplit, assign_unknown by assumption. reflexivity.
Qed.

Lemma unknown_key_ignored_witness :
  parse_args lower_ascii [py "true"; py "colour=red"; py "append"]
  = parse_args lower_ascii [py "true"; py "append"].
Proof.
  apply (unknown_key_ignored lower_ascii [py "true"] [py "append"]
           (py "colour=red") (py "colour") (py "red")); reflexivity.
Defined.

Lemma filter_none {A : Type} (f : A -> bool) l :
  Forall (fun x => f x = false) l -> filter f l = [] /\ filter (fun x => negb (f x)) l = l.
Proof.
  induction 1 as [|x l Hx _ [IH1 IH2]]; simpl; [now split|].
  rewrite Hx. simpl. split; [assumption | now f_equal].
Qed.

(** X19: when no argument holds a '=', the arguments are read by
    position: the first for the timing, the second for appending, then the
    separator, the input file and the output file; missing ones stay unset
    and a sixth or later one is not read. *)
Theorem positional_arguments (lower : str -> str) (argv : list str)
        (H : Forall (fun arg => has_equals arg = false) argv) :
  parse_args lower argv
  = Some {| analyze_speed := option_map (is_true lower) (nth_error argv 0);
            append := option_map (is_true_or_append lower) (nth_error argv 1);
            separator := nth_error argv 2;
            input_filename := nth_error argv 3;
            output_filename := nth_error argv 4 |}.
Proof.
  assert (I : forall o : option str, option_map (fun a => a) o = o)
    by (intros [x|]; reflexivity).
  unfold parse_args. destruct (filter_none has_equals argv H) as [-> ->].
  cbn [key_value_loop]. unfold positional, or_positional, cli_none.
  cbn [analyze_speed append separator input_filename output_filename].
  now rewrite !I.
Qed.

Lemma positional_arguments_witness :
  parse_args lower_ascii [py "TRUE"; py "append"; py "-----"]
  = Some {| analyze_speed := Some true; append := Some true;
            separator := Some (py "-----");
            input_filename := None; output_filename := None |}.
Proof.
  apply (positional_arguments lower_ascii [py "TRUE"; py "append"; py "-----"]).
  repeat constructor.
Defined.

Lemma str_eqb_eq a : forall b, str_eqb a b = true -> a = b.
Proof.
  induction a as [|c a IH]; intros [|d b]; simpl; try discriminate; [reflexivity|].
  intros H. apply andb_true_iff in H as [H1 H2].
  apply N.eqb_eq in H1. subst d. f_equal. now apply IH.
Qed.

Lemma split_once_none arg : has_equals arg = false -> split_once arg = None.
Proof.
  intros H. destruct (split_once arg) as [[k v]|] eqn:E; [|reflexivity].
  apply split_once_some_has_equals in E. congruence.
Qed.

(** The effect of one [key=value] on each of the text-valued variables. *)
Lemma assign_separator lower st key value :
  separator (assign lower st key value)
  = if str_eqb key (py "separator") then Some value else separator st.
Proof.
  destruct (str_eqb key (py "separator")) eqn:K.
  - apply str_eqb_eq in K. subst key. reflexivity.
  - unfold assign. rewrite K.
    destruct (str_eqb key (py "analyze_speed")); [reflexivity|].
    destruct (str_eqb key (py "append")); [reflexivity|].
    destruct (str_eqb key (py "input_filename")); [reflexivity|].
    destruct (str_eqb key (py "output_filename")); reflexivity.
Qed.

Lemma assign_input_filename lower st key value :
  input_filename (assign lower st key value)
  = if str_eqb key (py "input_filename") then Some value else input_filename st.
Proof.
  destruct (str_eqb key (py "input_filename")) eqn:K.
  - apply str_eqb_eq in K. subst key. reflexivity.
  - unfold assign. rewrite K.
    destruct (str_eqb key (py "analyze_speed")); [reflexivity|].
    destruct (str_eqb key (py "append")); [reflexivity|].
    destruct (str_eqb key (py "separator")); [reflexivity|].
    destruct (str_eqb key (py "output_filename")); reflexivity.
Qed.

Lemma assign_output_filename lower st key value :
  output_filename (assign lower st key value)
  = if str_eqb key (py "output_filename") then Some value else output_filename st.
Proof.
  destruct (str_eqb key (py "output_filename")) eqn:K.
  - apply str_eqb_eq in K. subst key. reflexivity.
  - unfold assign. rewrite K.
    destruct (str_eqb key (py "analyze_speed")); [reflexivity|].
    destruct (str_eqb key (py "append")); [reflexivity|].
    destruct (str_eqb key (py "separator")); [reflexivity|].
    destruct (str_eqb key (py "input_filename")); reflexivity.
Qed.

Lemma assign_analyze_speed lower st key value :
  analyze_speed (assign lower st key value)
  = if str_eqb key (py "analyze_speed") then Some (is_true lower value)
    else analyze_speed st.
Proof.
  destruct (str_eqb key (py "analyze_speed")) eqn:K.
  - apply str_eqb_eq in K. subst key. reflexivity.
  - unfold assign. rewrite K.
    destruct (str_eqb key (py "append")); [reflexivity|].
    destruct (str_eqb key (py "separator")); [reflexivity|].
    destruct (str_eqb key (py "input_filename")); [reflexivity|].
    destruct (str_eqb key (py "output_filename")); reflexivity.
Qed.

Lemma assign_append lower st key value :
  append (assign lower st key value)
  = if str_eqb key (py "append") then Some (is_true_or_append lower value)
    else append st.
Proof.
  destruct (str_eqb key (py "append")) eqn:K.
  - apply str_eqb_eq in K. subst key. reflexivity.
  - unfold assign. rewrite K.
    destruct (str_eqb key (py "analyze_speed")); [reflexivity|].
    destruct (str_eqb key (py "separator")); [reflexivity|].
    destruct (str_eqb key (py "input_filename")); [reflexivity|].
    destruct (str_eqb key (py "output_filename")); reflexivity.
Qed.

(** A variable that each [key=value] sets, or leaves, as [assign] does,
    holds in the end what the last value given for its key makes. *)
Lemma key_value_loop_field {A : Type} lower (field : cli -> option A)
      (key : str) (f : str -> A) :
  (forall st k v, field (assign lower st k v)
                  = if str_eqb k key then Some (f v) else field st) ->
  forall argv st st',
    key_value_loop lower (filter has_equals argv) st = Some st' ->
    field st' = match last_value key argv with
                | Some value => Some (f value)
                | None => field st
                end.
Proof.
  intros Hassign. induction argv as [|arg argv IH]; intros st st'; simpl.
  - now intros [= <-].
  - destruct (has_equals arg) eqn:He.
    + simpl. destruct (split_once arg) as [[k v]|]; [|discriminate].
      intros H. apply IH in H. rewrite H, Hassign.
      destruct (last_value key argv); [reflexivity|].
      now destruct (str_eqb k key).
    + rewrite (split_once_none arg He). intros H. apply IH in H. rewrite H.
      now destruct (last_value key argv).
Qed.

(** X20: each of the five variables ends up with what the last
    [key=value] argument for its key gives, wherever it stands among the
    arguments; only without any such argument is it read from the
    arguments that hold no '=', at its rank (first to fifth); the two
    truth values are read from the text the same way in both cases. *)
Theorem key_value_over_position (lower : str -> str) (argv : list str) :
  exists st,
    parse_args lower argv = Some st
    /\ analyze_speed st
       = option_map (is_true lower) (key_or_position (py "analyze_speed") 0 argv)
    /\ append st
       = option_map (is_true_or_append lower) (key_or_position (py "append") 1 argv)
    /\ separator st = key_or_position (py "separator") 2 argv
    /\ input_filename st = key_or_position (py "input_filename") 3 argv
    /\ output_filename st = key_or_position (py "output_filename") 4 argv.
Proof.
  unfold parse_args, key_or_position.
  destruct (key_value_loop_total lower _ (filter_has_equals argv) cli_none)
    as [st Hst].
  rewrite Hst. eexists. split; [reflexivity|].
  unfold positional, or_positional.
  cbn [analyze_speed append separator input_filename output_filename].
  rewrite (key_value_loop_field lower analyze_speed (py "analyze_speed") _
             (assign_analyze_speed lower) argv _ _ Hst).
  rewrite (key_value_loop_field lower append (py "append") _
             (assign_append lower) argv _ _ Hst).
  rewrite (key_value_loop_field lower separator (py "separator") (fun a => a)
             (assign_separator lower) argv _ _ Hst).
  rewrite (key_value_loop_field lower input_filename (py "input_filename")
             (fun a => a) (assign_input_filename lower) argv _ _ Hst).
  rewrite (key_value_loop_field lower output_filename (py "output_filename")
             (fun a => a) (assign_output_filename lower) argv _ _ Hst).
  cbn [cli_none analyze_speed append separator input_filename output_filename].
  assert (I : forall o : option str, option_map (fun a => a) o = o)
    by (intros [x|]; reflexivity).
  repeat split.
  - now destruct (last_value (py "analyze_speed") argv).
  - now destruct (last_value (py "append") argv).
  - destruct (last_value (py "separator") argv); [reflexivity | apply I].
  - destruct (last_value (py "input_filename") argv); [reflexivity | apply I].
  - destruct (last_value (py "output_filename") argv); [reflexivity | apply I].
Qed.

(** * More on [src/text_variations.py] *)

(** ** Flat groups *)

Lemma plain_net_depth s :
  ~ In lbracket s -> ~ In rbracket s -> net_depth s = 0%Z.
Proof.
  induction s as [|c s IH]; simpl; intros Hl Hr; [reflexivity|].
  destruct (N.eqb_spec c lbracket) as [->|_]; [tauto|].
  destruct (N.eqb_spec c rbracket) as [->|_]; [tauto|].
  rewrite IH; tauto.
Qed.

Lemma no_bracket_balanced s :
  ~ In lbracket s -> ~ In rbracket s -> balanced s = true.
Proof.
  unfold balanced. induction s as [|c s IH]; simpl; intros Hl Hr; [reflexivity|].
  destruct (N.eqb_spec c lbracket) as [->|_]; [tauto|].
  destruct (N.eqb_spec c rbracket) as [->|_]; [tauto|].
  apply IH; tauto.
Qed.

Lemma join_no_bracket (b : char) alts :
  b <> pipe -> Forall (fun a => ~ In b a) alts -> ~ In b (join [pipe] alts).
Proof.
  intros Hb. induction 1 as [|a alts Ha F IH]; simpl; [tauto|].
  destruct alts as [|a' alts]; [assumption|].
  intros Hin. apply in_app_or in Hin as [Hin|Hin]; [tauto|].
  simpl in Hin. destruct Hin as [E|Hin]; [congruence | tauto].
Qed.

Lemma split_from_join alts : forall current,
  alts <> [] -> Forall plain alts ->
  split_from current (join [pipe] alts) 0 = (current ++ hd [] alts) :: tl alts.
Proof.
  induction alts as [|a alts IH]; intros current Hne F; [congruence|].
  inversion F as [|? ? (Hl & Hr & Hp) F']; subst.
  destruct alts as [|a' alts].
  - simpl. now apply split_from_no_pipe.
  - rewrite join_cons by discriminate.
    change ([pipe] ++ join [pipe] (a' :: alts)) with (pipe :: join [pipe] (a' :: alts)).
    rewrite split_from_pipe by (rewrite plain_net_depth; auto).
    rewrite split_from_no_pipe by assumption.
    rewrite IH by (assumption || discriminate). reflexivity.
Qed.

Lemma flat_map_singleton {A B : Type} (f : A -> list B) (g : A -> B) l :
  (forall x, In x l -> f x = [g x]) -> flat_map f l = map g l.
Proof.
  induction l as [|x l IH]; intros H; simpl; [reflexivity|].
  rewrite (H x) by now left. simpl. f_equal. apply IH. intros y Hy. apply H. now right.
Qed.

(** X21: a group of alternatives that hold no bracket and no '|', between
    a text [pre] and a text [post] without '[', gives one variation per
    alternative, in order: the alternative between [pre] and [post],
    normalized.  Splitting undoes the joining of such alternatives. *)
Theorem flat_group_expansion (pre post : str) (alts : list str)
        (Hne : alts <> []) (Halts : Forall plain alts)
        (Hpre : ~ In lbracket pre) (Hpost : ~ In lbracket post) :
  split_options (join [pipe] alts) = alts
  /\ expand (pre ++ lbracket :: join [pipe] alts ++ rbracket :: post)
     = map (fun alternative => normalize (pre ++ alternative ++ post)) alts.
Proof.
  assert (S : split_options (join [pipe] alts) = alts).
  { rewrite split_options_split_from, split_from_join by assumption.
    destruct alts; [congruence | reflexivity]. }
  split; [exact S|].
  assert (Hb : balanced (join [pipe] alts) = true).
  { apply no_bracket_balanced; apply join_no_bracket; try discriminate;
      eapply Forall_impl; try exact Halts; unfold plain; simpl; tauto. }
  unfold expand, generate_text_variations.
  rewrite gvr_group, S, (gvr_no_bracket post) by assumption.
  rewrite (flat_map_singleton _ (fun alternative => pre ++ alternative ++ post)).
  - apply map_map.
  - intros a Ha. rewrite Forall_forall in Halts.
    destruct (Halts a Ha) as (Hl & _ & _).
    rewrite (gvr_no_bracket a) by assumption. reflexivity.
Qed.

Lemma flat_group_expansion_witness :
  expand (py "A " ++ lbracket :: join [pipe] [py "x"; py ""; py "y z"]
                ++ rbracket :: py " B")
  = map (fun alternative => normalize (py "A " ++ alternative ++ py " B"))
        [py "x"; py ""; py "y z"].
Proof.
  refine (proj2 (flat_group_expansion (py "A ") (py " B")
                   [py "x"; py ""; py "y z"] _ _ _ _)).
  - discriminate.
  - repeat constructor; simpl; intuition discriminate.
  - simpl. intuition discriminate.
  - simpl. intuition discriminate.
Defined.

(** X22: the options of a balanced body are balanced: the recursion on the
    alternatives of a well-formed group only meets well-formed texts. *)
Theorem options_of_balanced_body (body option : str)
        (Hb : balanced body = true) (Ho : In option (split_options body)) :
  balanced option = true.
Proof.
  rewrite split_options_split_from in Ho.
  pose proof (split_from_balanced body [] 0%Z (fun z Hz => Hz) Hb) as F.
  rewrite Forall_forall in F. now apply F.
Qed.

Lemma options_of_balanced_body_witness :
  balanced (py "a[b|c]|[d]e") = true
  /\ In (py "a[b|c]") (split_options (py "a[b|c]|[d]e"))
  /\ balanced (py "a[b|c]") = true.
Proof.
  assert (Ho : In (py "a[b|c]") (split_options (py "a[b|c]|[d]e")))
    by (vm_compute; left; reflexivity).
  split; [reflexivity|]. split; [exact Ho|].
  exact (options_of_balanced_body (py "a[b|c]|[d]e") (py "a[b|c]") eq_refl Ho).
Defined.

(** ** Redundant spaces *)

Lemma sub_spaces_from_double a b : forall in_run,
  sub_spaces_from in_run (a ++ space :: space :: b)
  = sub_spaces_from in_run (a ++ space :: b).
Proof.
  induction a as [|c a IH]; intros in_run.
  - cbn [app sub_spaces_from]. change (N.eqb space space) with true.
    cbn iota. now destruct in_run.
  - cbn [app sub_spaces_from]. destruct (N.eqb c space).
    + destruct in_run; now rewrite IH.
    + now rewrite IH.
Qed.

Lemma lstrip_sub_spaces_from s :
  lstrip (sub_spaces_from true s) = lstrip (sub_spaces_from false s).
Proof.
  destruct s as [|c s]; [reflexivity|]. cbn [sub_spaces_from].
  destruct (N.eqb c space); reflexivity.
Qed.

Lemma sub_spaces_from_snoc s : forall in_run,
  exists t, (t = [] \/ t = [space])
            /\ sub_spaces_from in_run (s ++ [space]) = sub_spaces_from in_run s ++ t.
Proof.
  induction s as [|c s IH]; intros in_run.
  - cbn [app sub_spaces_from]. change (N.eqb space space) with true. cbn iota.
    destruct in_run; [exists [] | exists [space]]; auto.
  - cbn [app sub_spaces_from]. destruct (N.eqb c space).
    + destruct (IH true) as (t & Ht & ->). exists t. now destruct in_run.
    + destruct (IH false) as (t & Ht & ->). now exists t.
Qed.

Lemma lstrip_all_space y : forallb isspace y = true -> lstrip y = [].
Proof.
  induction y as [|c y IH]; simpl; [reflexivity|].
  destruct (isspace c); simpl; [assumption | discriminate].
Qed.

Lemma lstrip_snoc y c :
  isspace c = true ->
  lstrip (y ++ [c]) = if forallb isspace y then [] else lstrip y ++ [c].
Proof.
  intros Hc. induction y as [|d y IH]; simpl.
  - now rewrite Hc.
  - destruct (isspace d); simpl; [assumption | reflexivity].
Qed.

Lemma strip_snoc y c : isspace c = true -> strip (y ++ [c]) = strip y.
Proof.
  intros Hc. unfold strip. rewrite lstrip_snoc by assumption.
  destruct (forallb isspace y) eqn:Hy.
  - now rewrite lstrip_all_space.
  - unfold rstrip. rewrite rev_app_distr. simpl. now rewrite Hc.
Qed.

(** X23: the normalization does not see redundant spaces: a second space
    after a space, a space in front, a space at the end change nothing to
    the result. *)
Theorem normalize_redundant_spaces (a b s : str) :
  normalize (a ++ space :: space :: b) = normalize (a ++ space :: b)
  /\ normalize (space :: s) = normalize s
  /\ normalize (s ++ [space]) = normalize s.
Proof.
  unfold normalize, sub_spaces. repeat split.
  - now rewrite sub_spaces_from_double.
  - cbn [sub_spaces_from]. change (N.eqb space space) with true. cbn iota.
    unfold strip. cbn [lstrip]. change (isspace space) with true. cbn iota.
    now rewrite lstrip_sub_spaces_from.
  - destruct (sub_spaces_from_snoc s false) as (t & [->| ->] & ->).
    + now rewrite app_nil_r.
    + now apply strip_snoc.
Qed.

(** ** Expanding a variation again *)

Lemma gvr_all_matched_no_lbracket text :
  all_matched text ->
  forall v, In v (generate_variations_recursive text) -> ~ In lbracket v.
Proof.
  induction text as [text IH] using (induction_ltof1 _ (@length char)).
  unfold ltof in IH. intros Ha v.
  destruct (re_search_lbracket text) as [i|] eqn:Hs.
  2:{ apply (search_from_none text 0) in Hs. rewrite gvr_no_bracket by assumption.
      now intros [<-|[]]. }
  destruct (find_matching_bracket text i) as [j|] eqn:Hm.
  2:{ exfalso. apply (Ha i). split; [|assumption].
      destruct (re_search_some _ _ Hs) as (pre & post & -> & -> & _).
      now rewrite nth_error_app2, Nat.sub_diag by lia. }
  destruct (group_shape _ _ _ Hs Hm) as (pre & body & post & Et & _ & _ & Hp & Hb).
  assert (Hpost : all_matched post).
  { destruct (group_found pre body post Hp Hb) as (_ & _ & _ & _ & E).
    rewrite <- E, <- Et. now apply all_matched_skipn. }
  assert (L : length post < length text).
  { rewrite Et, length_app. simpl. rewrite length_app. simpl. lia. }
  rewrite Et, gvr_group by assumption.
  intros H. apply in_flat_map in H as (o & Ho & H).
  apply in_flat_map in H as (x & Hx & H).
  apply in_map_iff in H as (y & <- & Hy).
  apply (gvr_balanced_no_brackets o (split_options_balanced _ _ Hb Ho)) in Hx.
  apply (IH post L Hpost) in Hy.
  intros Hin. apply in_app_or in Hin as [Hin|Hin]; [tauto|].
  apply in_app_or in Hin as [Hin|Hin]; tauto.
Qed.

(** X24: when every '[' of the template has its matching ']', no returned
    variation holds a '[', and expanding a returned variation again gives
    that variation alone, unchanged. *)
Theorem variations_are_expanded (text v : str)
        (Ha : all_matched text) (H : In v (expand text)) :
  ~ In lbracket v /\ expand v = [v].
Proof.
  unfold expand, generate_text_variations in *.
  apply in_map_iff in H as (x & <- & Hx).
  assert (Hl : ~ In lbracket (normalize x)).
  { intros Hin. apply (subseq_In _ _ _ (subseq_normalize x)) in Hin.
    now apply (gvr_all_matched_no_lbracket text Ha x Hx). }
  split; [exact Hl|].
  rewrite gvr_no_bracket by assumption. simpl. now rewrite normalize_idempotent.
Qed.

Lemma variations_are_expanded_witness :
  all_matched (py "x] [a|b] ")
  /\ In (py "x] b") (expand (py "x] [a|b] "))
  /\ expand (py "x] b") = [py "x] b"].
Proof.
  assert (Ha : all_matched (py "x] [a|b] ")).
  { intros k [H1 H2].
    do 9 (destruct k as [|k]; [vm_compute in H1, H2; discriminate|]).
    simpl in H1. destruct k; discriminate. }
  assert (H : In (py "x] b") (expand (py "x] [a|b] "))).
  { vm_compute. right. left. reflexivity. }
  split; [exact Ha|]. split; [exact H|].
  exact (proj2 (variations_are_expanded _ _ Ha H)).
Defined.
